(** * caffe/common.hpp: concurrency primitives and runtime context

    A shallow embedding of the verification-relevant part of
    [include/caffe/common.hpp]:

    - [atomic_maximum] / [atomic_minimum]: the compare-and-swap retry loops,
      as a small-step machine over a shared cell and a pool of threads;
    - [Flag]: the mutex/condition-variable event;
    - [ThreadSafeMap]: the mutex-guarded wrapper around an ordered map;
    - [Caffe]: the static configuration accessors of the singleton.

    Every public operation of [Flag] and [ThreadSafeMap] takes the object's
    mutex for its whole body, so an operation is one atomic state
    transformer; a blocking [cv_.wait(lock, pred)] is a transition that is
    enabled only in states satisfying [pred]. *)

From Stdlib Require Import ZArith Lia Bool.
From stdpp Require Import base list sorting.

Local Open Scope Z_scope.

(** ** Orders supplied by template parameters

    [std::map<K, V>] orders its keys with a comparison object (by default
    [operator<] on the key type), and [insert_max] compares mapped values with
    [operator>].  Both are strict total orders on the types the runtime uses;
    the class below is the contract either comparison has to meet. *)

Class StrictTotal {A : Type} (lt : A → A → bool) : Prop := {
  lt_irrefl : ∀ a, lt a a = false;
  lt_trans : ∀ a b c, lt a b = true → lt b c = true → lt a c = true;
  lt_connected : ∀ a b, lt a b = false → lt b a = false → a = b
}.

(** ** atomic_maximum / atomic_minimum

    Both templates are the same retry loop and differ only in the direction
    of the comparison that guards the compare-and-swap.  [Dtype] is an
    integer type here (the only instantiation in this header is [size_t]);
    no arithmetic is performed on the values, only comparisons, so they are
    modelled as [Z]. *)

Module Atomic.
Inductive extremum := Maximum | Minimum.

(** The loop guard: [prev_val < new_val] in [atomic_maximum],
    [prev_val > new_val] in [atomic_minimum]. *)
Definition improves (d : extremum) (prev_val new_val : Z) : bool :=
  match d with
  | Maximum => prev_val <? new_val
  | Minimum => prev_val >? new_val
  end.

(** [cell.compare_exchange_weak(expected, desired)]: returns whether the
    exchange happened, the cell afterwards, and [expected] afterwards.  On
    failure [expected] is reloaded from the cell.  [spurious] says that this
    attempt fails although the cell holds the expected value. *)
Definition compare_exchange_weak (spurious : bool) (cell expected desired : Z)
    : bool * Z * Z :=
  if (cell =? expected) && negb spurious
  then (true, desired, expected)
  else (false, cell, cell).

(** Control points of one call: before [atomic_load], at the loop
    condition with the local [prev_val], and after the loop. *)
Inductive thread :=
| Entry (new_val : Z)
| Loop (prev_val new_val : Z)
| Exit (new_val : Z).

Definition new_val_of (t : thread) : Z :=
  match t with Entry c | Loop _ c | Exit c => c end.

Definition exited (t : thread) : bool :=
  match t with Exit _ => true | _ => false end.

(** One atomic action of a thread on the shared cell.  The guard reads
    thread-local data only, so evaluating it and performing the
    compare-and-swap is a single action on the cell. *)
Definition thread_step (d : extremum) (spurious : bool) (cell : Z)
    (t : thread) : Z * thread :=
  match t with
  | Entry new_val => (cell, Loop cell new_val)
  | Loop prev_val new_val =>
      if improves d prev_val new_val then
        match compare_exchange_weak spurious cell prev_val new_val with
        | (true, cell', _) => (cell', Exit new_val)
        | (false, cell', prev_val') => (cell', Loop prev_val' new_val)
        end
      else (cell, Exit new_val)
  | Exit new_val => (cell, Exit new_val)
  end.

(** A call running without interference; [oracle] lists, action by action,
    whether a compare-and-swap attempted there fails spuriously. *)
Fixpoint run_alone (d : extremum) (oracle : list bool) (cell : Z)
    (t : thread) : Z * thread :=
  match oracle with
  | [] => (cell, t)
  | b :: oracle' =>
      let '(cell', t') := thread_step d b cell t in
      run_alone d oracle' cell' t'
  end.

Definition atomic_maximum (oracle : list bool) (max_val new_val : Z)
    : Z * thread :=
  run_alone Maximum oracle max_val (Entry new_val).

Definition atomic_minimum (oracle : list bool) (min_val new_val : Z)
    : Z * thread :=
  run_alone Minimum oracle min_val (Entry new_val).

(** Concurrent calls on one cell: the cell and the control state of each
    participating thread. *)
Definition pool : Type := Z * list thread.

Definition start (cell : Z) (proposals : list Z) : pool :=
  (cell, Entry <$> proposals).

(** Thread [i] performs its next action. *)
Definition step (d : extremum) (i : nat) (spurious : bool) (p : pool)
    : pool :=
  match p.2 !! i with
  | Some t =>
      let '(cell', t') := thread_step d spurious p.1 t in
      (cell', <[i := t']> p.2)
  | None => p
  end.

(** An interleaving: which thread moves next, and whether a
    compare-and-swap attempted by that move fails spuriously. *)
Definition run (d : extremum) (sched : list (nat * bool)) (p : pool)
    : pool :=
  foldl (λ q e, step d e.1 e.2 q) p sched.

(** Three undisturbed actions complete any call; [finish n] lets threads
    [0 .. n-1] complete one after the other. *)
Definition finish (n : nat) : list (nat * bool) :=
  i ← seq 0 n; [(i, false); (i, false); (i, false)].

(** [a] is at least as extreme as [b]. *)
Definition reaches (d : extremum) (a b : Z) : Prop :=
  match d with
  | Maximum => b ≤ a
  | Minimum => a ≤ b
  end.

(** What the control state of a thread tells about the cell: the value the
    thread last loaded has been reached, and so has its proposal once it has
    left the loop. *)
Definition settled (d : extremum) (cell : Z) (t : thread) : Prop :=
  match t with
  | Entry _ => True
  | Loop prev_val _ => reaches d cell prev_val
  | Exit new_val => reaches d cell new_val
  end.

(** The invariant of a pool started on [cell0] with [proposals]: the
    threads still carry their proposals, the cell has not moved back from
    [cell0], it holds [cell0] or one of the proposals, and every thread is
    [settled]. *)
Definition consistent (d : extremum) (cell0 : Z) (proposals : list Z)
    (p : pool) : Prop :=
  new_val_of <$> p.2 = proposals
  ∧ reaches d p.1 cell0
  ∧ p.1 ∈ cell0 :: proposals
  ∧ Forall (settled d p.1) p.2.

Definition best (d : extremum) (a b : Z) : Z :=
  match d with
  | Maximum => Z.max a b
  | Minimum => Z.min a b
  end.

Definition best_of (d : extremum) (init : Z) (proposals : list Z) : Z :=
  foldr (best d) init proposals.
End Atomic.

(** ** Flag *)

Module Flag.
Record Flag := { flag_ : bool; disarmed_ : bool }.

(** [explicit Flag(bool state = false)] *)
Definition make (state : bool) : Flag :=
  {| flag_ := state; disarmed_ := false |}.

Definition is_set (f : Flag) : bool := flag_ f.

Definition set (f : Flag) : Flag :=
  {| flag_ := true; disarmed_ := disarmed_ f |}.

Definition reset (f : Flag) : Flag :=
  {| flag_ := false; disarmed_ := disarmed_ f |}.

Definition disarm (f : Flag) : Flag :=
  {| flag_ := flag_ f; disarmed_ := true |}.

(** The predicates handed to [cv_.wait]: the call returns from the wait
    only in a state where its predicate holds. *)
Definition wait_pred (f : Flag) : bool := flag_ f.

Definition wait_reset_pred (f : Flag) : bool := flag_ f || disarmed_ f.

(** [wait()]: [None] while the caller stays blocked, otherwise the state
    the call leaves behind. *)
Definition wait (f : Flag) : option Flag :=
  if wait_pred f then Some f else None.

(** [wait_reset()]: as above; once woken, [flag_] is cleared unless the
    flag has been disarmed. *)
Definition wait_reset (f : Flag) : option Flag :=
  if wait_reset_pred f then
    Some (if negb (disarmed_ f)
          then {| flag_ := false; disarmed_ := disarmed_ f |}
          else f)
  else None.

(** What other threads may do to the flag while a caller is blocked. *)
Inductive op := DoSet | DoReset | DoDisarm.

Definition apply (o : op) (f : Flag) : Flag :=
  match o with
  | DoSet => set f
  | DoReset => reset f
  | DoDisarm => disarm f
  end.

Definition apply_all (ops : list op) (f : Flag) : Flag :=
  foldl (λ g o, apply o g) f ops.

Definition is_set_op (o : op) : bool :=
  match o with DoSet => true | _ => false end.
(** The value written to [flag_] by the last [set()] or [reset()] among
    [ops], if there is one. *)
Definition last_toggle (ops : list op) : option bool :=
  foldl (λ acc o,
           match o with
           | DoSet => Some true
           | DoReset => Some false
           | DoDisarm => acc
           end) None ops.

Definition is_disarm_op (o : op) : bool :=
  match o with DoDisarm => true | _ => false end.

(** [n] callers pass through [wait_reset()] one after the other; [None] as
    soon as one of them would block. *)
Fixpoint wait_reset_times (n : nat) (f : Flag) : option Flag :=
  match n with
  | O => Some f
  | S n' =>
      match wait_reset f with
      | Some f' => wait_reset_times n' f'
      | None => None
      end
  end.
End Flag.

(** ** ThreadSafeMap<M> *)

Module ThreadSafeMap.
Section map.
(** [key_type], [mapped_type] and the key comparison of [M]. *)
Context {K V : Type} (less : K → K → bool).

(** The contents of [*map_], listed in iteration order. *)
Definition M : Type := list (K * V).

(** The invariant every [std::map] maintains: iteration order is strictly
    increasing key order. *)
Definition ordered (m : M) : Prop :=
  StronglySorted (λ e1 e2, less e1.1 e2.1 = true) m.

(** [new M()] in the constructor. *)
Definition create : M := [].

Definition size (m : M) : nat := length m.

Definition clear (m : M) : M := [].

(** [map_->begin()]: [None] stands for [map_->end()]. *)
Definition begin (m : M) : option (K * V) := head m.

(** [map_->find(key)]: [None] stands for [map_->end()], otherwise the
    mapped value the iterator points at.  Keys are located with the
    comparison object only, as [std::map] does. *)
Fixpoint find (key : K) (m : M) : option V :=
  match m with
  | [] => None
  | (k, v) :: m' =>
      if less key k then None
      else if less k key then find key m'
      else Some v
  end.

(** [map_->emplace(key, value)]: inserts unless the key is present. *)
Fixpoint emplace (key : K) (value : V) (m : M) : M :=
  match m with
  | [] => [(key, value)]
  | (k, v) :: m' =>
      if less key k then (key, value) :: m
      else if less k key then (k, v) :: emplace key value m'
      else m
  end.

Definition insert (entry : K * V) (m : M) : M :=
  emplace entry.1 entry.2 m.

(** [it->second = value] for the iterator returned by [find(key)]. *)
Fixpoint assign (key : K) (value : V) (m : M) : M :=
  match m with
  | [] => []
  | (k, v) :: m' =>
      if less key k then m
      else if less k key then (k, v) :: assign key value m'
      else (k, value) :: m'
  end.

(** [map_->erase(key)]. *)
Fixpoint erase (key : K) (m : M) : M :=
  match m with
  | [] => []
  | (k, v) :: m' =>
      if less key k then m
      else if less k key then (k, v) :: erase key m'
      else m'
  end.

(** [map_->erase(it)] for [it = map_->begin()]. *)
Definition erase_begin (m : M) : M := tail m.

(** [insert_max(key, value)]; [greater] is [operator>] on [mapped_type]. *)
Definition insert_max (greater : V → V → bool) (key : K) (value : V)
    (m : M) : M :=
  match find key m with
  | None => emplace key value m
  | Some stored =>
      if greater value stored then assign key value m else m
  end.

(** The observable outcome of [remove_top(key, value)]: the returned
    [bool], the two reference arguments after the call, and the map. *)
Record removed := Removed {
  ret : bool;
  key_out : K;
  value_out : V;
  map_out : M
}.

Definition remove_top (m : M) (key : K) (value : V) : removed :=
  match begin m with
  | None => Removed false key value m
  | Some (k, v) => Removed true k v (erase_begin m)
  end.

(** The caller loop [while (map.remove_top(key, value)) out.push_back(key);]
    run for at most [fuel] iterations: the keys produced and the map left
    behind. *)
Fixpoint drain (fuel : nat) (m : M) (key : K) (value : V) : list K * M :=
  match fuel with
  | O => ([], m)
  | S fuel' =>
      let r := remove_top m key value in
      if ret r then
        let '(ks, m') := drain fuel' (map_out r) (key_out r) (value_out r) in
        (key_out r :: ks, m')
      else ([], map_out r)
  end.

(** A sequence of [insert_max] calls, applied left to right. *)
Definition insert_max_all (greater : V → V → bool) (calls : list (K * V))
    (m : M) : M :=
  foldl (λ acc c, insert_max greater c.1 c.2 acc) m calls.

(** The values offered for [key] in a sequence of calls, in call order. *)
Definition offered (key : K) (calls : list (K * V)) : list V :=
  omap (λ c : K * V,
          if less key c.1 || less c.1 key then None else Some c.2) calls.

(** The value stored under a key once [value] has been offered for it, where
    [stored] is what [find] gave before the call. *)
Definition raise (greater : V → V → bool) (stored : option V) (value : V)
    : option V :=
  Some (match stored with
        | None => value
        | Some s => if greater value s then value else s
        end).

(** Calling [remove_top] once more with the same two reference arguments. *)
Definition remove_top_again (r : removed) : removed :=
  remove_top (map_out r) (key_out r) (value_out r).

(** Keys come out in non-decreasing order. *)
Definition nondecreasing (ks : list K) : Prop :=
  StronglySorted (λ a b, less b a = false) ks.
(** [operator[](key)] on the map: a value-initialised mapped value ([init]) is inserted
    when the key is absent; the result is the mapped value the returned
    reference points at, together with the map afterwards. *)
Definition subscript (init : V) (key : K) (m : M) : V * M :=
  let m' := emplace key init m in
  (default init (find key m'), m').
End map.
End ThreadSafeMap.

(** ** Caffe: static configuration *)

Module Caffe.
Inductive Brew := CPU | GPU.

Definition Brew_eqb (a b : Brew) : bool :=
  match a, b with
  | CPU, CPU | GPU, GPU => true
  | _, _ => false
  end.

(** Conversion to [size_t] (64 bits). *)
Definition to_size_t (z : Z) : Z := z mod 2 ^ 64.

(** The static members read or written by the accessors below. *)
Record Caffe := {
  mode_ : Brew;
  root_device_ : Z;
  gpus_ : list Z;
  solver_count_ : Z;
  epoch_count_ : Z
}.

(** Modelled from the spec: the definition of the static [epoch_count_]
    lives in common.cpp; before any report the counter holds the "unset"
    sentinel, [(size_t)-1]. *)
Definition epoch_count_unset : Z := to_size_t (-1).

Definition with_epoch_count (count : Z) (c : Caffe) : Caffe :=
  {| mode_ := mode_ c; root_device_ := root_device_ c; gpus_ := gpus_ c;
     solver_count_ := solver_count_ c; epoch_count_ := count |}.

(** Calls of [report_epoch_count(rec)], one per element of [recs], each on
    a thread of its own and interleaved by [sched]: the state reached and
    where each call stands. *)
Definition report_epoch_count (recs : list Z) (sched : list (nat * bool))
    (c : Caffe) : Caffe * list Atomic.thread :=
  let p := Atomic.run Atomic.Minimum sched
             (Atomic.start (epoch_count_ c) recs) in
  (with_epoch_count p.1 c, p.2).

(** [epoch_count()] *)
Definition epoch_count (c : Caffe) : Z :=
  let count := epoch_count_ c in
  if count =? to_size_t (-1) then 0 else count.

Definition mode (c : Caffe) : Brew := mode_ c.

Definition root_device (c : Caffe) : Z := root_device_ c.

Definition gpus (c : Caffe) : list Z := gpus_ c.

Definition device_in_use_per_host_count (c : Caffe) : Z :=
  Z.of_nat (length (gpus_ c)).

(** [set_gpus(gpus)] *)
Definition set_gpus (gpus : list Z) (c : Caffe) : Caffe :=
  let gpus_1 := gpus in
  let gpus_2 :=
    match gpus_1 with
    | [] => gpus_1 ++ [root_device_ c]
    | _ => gpus_1
    end in
  {| mode_ := mode_ c; root_device_ := root_device_ c; gpus_ := gpus_2;
     solver_count_ := solver_count_ c; epoch_count_ := epoch_count_ c |}.

Definition with_mode (mode : Brew) (c : Caffe) : Caffe :=
  {| mode_ := mode; root_device_ := root_device_ c; gpus_ := gpus_ c;
     solver_count_ := solver_count_ c; epoch_count_ := epoch_count_ c |}.

Section set_mode.
(** [Caffe::init()] is declared in the header and defined in common.cpp;
    its effect on the state is a parameter. *)
Variable init : Caffe → Caffe.

(** [set_mode(mode)]: the state afterwards and the number of times
    [Get().init()] was called. *)
Definition set_mode (mode : Brew) (c : Caffe) : Caffe * nat :=
  if Brew_eqb (mode_ c) mode then (c, 0%nat)
  else
    let c' := with_mode mode c in
    (init c', 1%nat).
End set_mode.
(** A sequence of [set_mode] calls: the state reached and the total number
    of [init()] calls. *)
Fixpoint set_mode_all (init : Caffe → Caffe) (modes : list Brew)
    (c : Caffe) : Caffe * nat :=
  match modes with
  | [] => (c, 0%nat)
  | mode :: modes' =>
      let r := set_mode init mode c in
      let r' := set_mode_all init modes' r.1 in
      (r'.1, (r.2 + r'.2)%nat)
  end.

(** How often the requested mode differs from the mode in force, starting
    from [current]. *)
Fixpoint mode_changes (current : Brew) (modes : list Brew) : nat :=
  match modes with
  | [] => 0%nat
  | mode :: modes' =>
      ((if Brew_eqb current mode then 0 else 1) + mode_changes mode modes')%nat
  end.
End Caffe.

(** ** align_down, align_up, is_even, even

    The templates are modelled at [T = size_t] (unsigned, 64 bits).  The
    masks are computed in [int] and converted to [T] by the usual arithmetic
    conversions before the bit operation; [power] ranges over 0..30, where
    [1 << power] does not overflow [int]. *)

Module Align.
Definition to_size_t : Z → Z := Caffe.to_size_t.

(** [(1 << power) - 1], an [int]. *)
Definition low_mask (power : Z) : Z := Z.shiftl 1 power - 1.

(** [val & ~((1 << power) - 1)] *)
Definition align_down (power : Z) (val : Z) : Z :=
  Z.land val (to_size_t (Z.lnot (low_mask power))).

(** [!(val & ((1 << power) - 1)) ? val : (val | ((1 << power) - 1)) + 1] *)
Definition align_up (power : Z) (val : Z) : Z :=
  if Z.land val (to_size_t (low_mask power)) =? 0 then val
  else to_size_t (Z.lor val (to_size_t (low_mask power)) + 1).

(** [(val & 1) == 0] *)
Definition is_even (val : Z) : bool := Z.land val 1 =? 0.

(** [val & 1 ? val + 1 : val] *)
Definition even (val : Z) : Z :=
  if negb (Z.land val 1 =? 0) then to_size_t (val + 1) else val.

(** The values of [size_t]. *)
Definition is_size_t (val : Z) : Prop := 0 ≤ val < 2 ^ 64.
End Align.

(** * Properties *)

(** ** Comparison objects *)

Lemma lt_asym {A} (lt : A → A → bool) `{!StrictTotal lt} a b :
  lt a b = true → lt b a = false.
Proof.
  intros Hab. destruct (lt b a) eqn:Hba; [|done].
  pose proof (lt_trans _ _ _ Hab Hba) as Haa.
  rewrite lt_irrefl in Haa. done.
Qed.

#[global] Instance Z_ltb_strict_total : StrictTotal Z.ltb.
Proof. split; intros; lia. Qed.

#[global] Instance Z_gtb_strict_total : StrictTotal Z.gtb.
Proof. split; intros *; rewrite ?Z.gtb_ltb; lia. Qed.

(** ** ThreadSafeMap: the underlying ordered map *)

Section map_facts.
Import ThreadSafeMap.
Context {K V : Type} (less : K → K → bool) `{!StrictTotal less}.
Implicit Types (m : M (K:=K) (V:=V)) (k key : K) (v value : V).

(** Case analysis on how [key] compares with [k], following the two tests
    made by [find], [emplace], [assign] and [erase]. *)
Ltac compare key k :=
  let Hlt := fresh "Hlt" in
  let Hgt := fresh "Hgt" in
  destruct (less key k) eqn:Hlt;
    [ pose proof (lt_asym less _ _ Hlt)
    | destruct (less k key) eqn:Hgt;
      [ | pose proof (lt_connected _ _ Hlt Hgt); subst ] ].

Lemma ordered_nil : ordered less (@nil (K * V)).
Proof. constructor. Qed.

Lemma ordered_cons_inv k v m :
  ordered less ((k, v) :: m) →
  ordered less m ∧ ∀ k' v', (k', v') ∈ m → less k k' = true.
Proof.
  intros [Hm Hall]%StronglySorted_inv. split; [done|].
  intros k' v' Hin. rewrite Forall_forall in Hall. exact (Hall _ Hin).
Qed.

Lemma ordered_cons k v m :
  ordered less m → (∀ k' v', (k', v') ∈ m → less k k' = true) →
  ordered less ((k, v) :: m).
Proof.
  intros Hm Hall. constructor; [done|].
  apply Forall_forall. intros [k' v'] Hin. exact (Hall _ _ Hin).
Qed.

Lemma find_Some_elem_of key value m :
  find less key m = Some value → (key, value) ∈ m.
Proof.
  induction m as [|[k v] m IH]; simpl; [done|].
  compare key k; [done| |].
  - intros ?. right. auto.
  - intros [= ->]. left.
Qed.

Lemma elem_of_find key value m :
  ordered less m → (key, value) ∈ m → find less key m = Some value.
Proof.
  induction m as [|[k v] m IH]; intros Hord Hin; [by inversion Hin|].
  apply ordered_cons_inv in Hord as [Hm Hall].
  apply elem_of_cons in Hin as [[= -> ->]|Hin]; simpl.
  - by rewrite !lt_irrefl.
  - pose proof (Hall _ _ Hin) as Hk.
    rewrite (lt_asym less _ _ Hk), Hk. auto.
Qed.

Lemma find_emplace_eq key value m :
  find less key (emplace less key value m)
  = Some (default value (find less key m)).
Proof.
  induction m as [|[k v] m IH]; simpl.
  - by rewrite lt_irrefl.
  - compare key k; simpl.
    + by rewrite lt_irrefl.
    + by rewrite Hlt, Hgt.
    + by rewrite lt_irrefl.
Qed.

Lemma find_emplace_ne key value k' m :
  k' ≠ key →
  find less k' (emplace less key value m) = find less k' m.
Proof.
  intros Hne. induction m as [|[k v] m IH]; simpl.
  - compare k' key; done.
  - compare key k; simpl; [|by rewrite IH|done].
    compare k' key; [|done|done].
    by rewrite (lt_trans _ _ _ Hlt0 Hlt).
Qed.

Lemma find_assign_eq key value m :
  find less key (assign less key value m)
  = (λ _, value) <$> find less key m.
Proof.
  induction m as [|[k v] m IH]; simpl; [done|].
  compare key k; simpl.
  - by rewrite Hlt.
  - by rewrite Hlt, Hgt.
  - by rewrite lt_irrefl.
Qed.

Lemma find_assign_ne key value k' m :
  k' ≠ key →
  find less k' (assign less key value m) = find less k' m.
Proof.
  intros Hne. induction m as [|[k v] m IH]; simpl; [done|].
  compare key k; simpl; [done|by rewrite IH|].
  compare k' k; done.
Qed.

Lemma elem_of_emplace key value k' v' m :
  (k', v') ∈ emplace less key value m →
  (k', v') = (key, value) ∨ (k', v') ∈ m.
Proof.
  induction m as [|[k v] m IH]; simpl.
  - intros ->%list_elem_of_singleton. by left.
  - compare key k.
    + intros [->|Hin]%elem_of_cons; [by left|by right].
    + intros [->|Hin]%elem_of_cons; [right; left|].
      destruct (IH Hin) as [->|?]; [by left|right; by right].
    + by right.
Qed.

Lemma ordered_emplace key value m :
  ordered less m → ordered less (emplace less key value m).
Proof.
  induction m as [|[k v] m IH]; simpl; intros Hord.
  - apply ordered_cons; [constructor|]. intros ?? Hin. inversion Hin.
  - pose proof Hord as [Hm Hall]%ordered_cons_inv.
    compare key k; [| |done].
    + apply ordered_cons; [done|].
      intros k' v' [[= -> ->]|Hin]%elem_of_cons; [done|].
      exact (lt_trans _ _ _ Hlt (Hall _ _ Hin)).
    + apply ordered_cons; [auto|].
      intros k' v' [[= -> ->]|Hin]%elem_of_emplace; eauto.
Qed.

Lemma elem_of_assign key value k' v' m :
  (k', v') ∈ assign less key value m →
  k' = key ∨ (k', v') ∈ m.
Proof.
  induction m as [|[k v] m IH]; simpl; [by right|].
  compare key k.
  - by right.
  - intros [->|Hin]%elem_of_cons; [right; left|].
    destruct (IH Hin) as [->|?]; [by left|right; by right].
  - intros [[= -> ->]|Hin]%elem_of_cons; [by left|right; by right].
Qed.

Lemma ordered_assign key value m :
  ordered less m → ordered less (assign less key value m).
Proof.
  induction m as [|[k v] m IH]; simpl; intros Hord; [done|].
  pose proof Hord as [Hm Hall]%ordered_cons_inv.
  compare key k; [done| |].
  - apply ordered_cons; [auto|].
    intros k' v' [->|Hin]%elem_of_assign; eauto.
  - apply ordered_cons; eauto.
Qed.

Lemma ordered_erase key m :
  ordered less m → ordered less (erase less key m).
Proof.
  induction m as [|[k v] m IH]; simpl; intros Hord; [done|].
  pose proof Hord as [Hm Hall]%ordered_cons_inv.
  compare key k; [done| |done].
  apply ordered_cons; [auto|].
  intros k' v' Hin. apply (Hall k' v').
  clear -Hin. induction m as [|[k1 v1] m IH]; simpl in *; [done|].
  destruct (less key k1); [done|]. destruct (less k1 key).
  - apply elem_of_cons in Hin as [->|Hin]; [left|right; auto].
  - by right.
Qed.

Lemma ordered_insert_max greater key value m :
  ordered less m → ordered less (insert_max less greater key value m).
Proof.
  intros Hord. unfold insert_max.
  destruct (find less key m) as [stored|].
  - destruct (greater value stored); [by apply ordered_assign|done].
  - by apply ordered_emplace.
Qed.

Lemma ordered_remove_top m key value :
  ordered less m → ordered less (map_out (remove_top m key value)).
Proof.
  destruct m as [|[k v] m]; simpl; [done|].
  by intros [? _]%ordered_cons_inv.
Qed.

Lemma ordered_keys_increasing m :
  ordered less m → StronglySorted (λ a b, less a b = true) m.*1.
Proof.
  induction m as [|[k v] m IH]; simpl; intros Hord; [constructor|].
  apply ordered_cons_inv in Hord as [Hm Hall].
  constructor; [auto|].
  apply Forall_forall. intros k' [[k1 v1] [-> Hin]]%list_elem_of_fmap.
  exact (Hall _ _ Hin).
Qed.

Lemma increasing_nondecreasing (ks : list K) :
  StronglySorted (λ a b, less a b = true) ks → nondecreasing less ks.
Proof.
  unfold nondecreasing.
  induction 1 as [|a l Hl IH Hall]; constructor; [done|].
  eapply Forall_impl; [exact Hall|].
  intros b Hab. by apply (lt_asym less).
Qed.

Lemma drain_all fuel m key value :
  (length m ≤ fuel)%nat → drain fuel m key value = (m.*1, []).
Proof.
  revert m key value.
  induction fuel as [|fuel IH]; intros [|[k v] m] key value Hlen;
    simpl in *; try done; [lia|].
  rewrite IH by lia. done.
Qed.
End map_facts.

(** ** ThreadSafeMap: remove_top *)

Section remove_top_facts.
Import ThreadSafeMap.
Context {K V : Type} (less : K → K → bool) `{!StrictTotal less}.
Implicit Types (m : M (K:=K) (V:=V)) (k key : K) (v value : V).

Lemma remove_top_nonempty m key value :
  m ≠ [] →
  ∃ k v m', m = (k, v) :: m' ∧ remove_top m key value = Removed true k v m'.
Proof. destruct m as [|[k v] m']; [done|]. intros _. by exists k, v, m'. Qed.

Lemma remove_top_false_iff m key value :
  ret (remove_top m key value) = false ↔ m = [].
Proof. destruct m as [|[k v] m']; simpl; split; done. Qed.

(** C1, amended. For a map that iterates in strictly increasing key order
    (an ordered [M] such as [std::map] with a strict total comparison): on a
    non-empty map [remove_top] returns [true] and hands out an entry that was
    stored in the map and whose key is below every other key present; exactly
    that entry is removed and all others stay.  Running [remove_top] until it
    reports [false] produces the keys in non-decreasing order (every key of
    the map, once) and leaves the map empty. *)
Theorem remove_top_takes_minimum m key value :
  ordered less m →
  (m ≠ [] →
   let r := remove_top m key value in
   ret r = true
   ∧ find less (key_out r) m = Some (value_out r)
   ∧ (∀ k v, (k, v) ∈ m → k = key_out r ∨ less (key_out r) k = true)
   ∧ find less (key_out r) (map_out r) = None
   ∧ (∀ k, k ≠ key_out r → find less k (map_out r) = find less k m)
   ∧ size (map_out r) = pred (size m)
   ∧ ordered less (map_out r))
  ∧ (∀ fuel, (size m ≤ fuel)%nat →
     let '(ks, m') := drain fuel m key value in
     nondecreasing less ks
     ∧ ks = m.*1
     ∧ m' = []
     ∧ ret (remove_top m' key value) = false).
Proof.
  intros Hord. split.
  - intros Hne.
    destruct (remove_top_nonempty m key value Hne) as (k0 & v0 & m' & -> & ->).
    simpl. pose proof Hord as [Hm' Hall]%ordered_cons_inv.
    rewrite !lt_irrefl. repeat split; try done.
    + intros k v [[= -> ->]|Hin]%elem_of_cons; [by left|right; eauto].
    + destruct (find less k0 m') as [v|] eqn:Hf; [|done].
      apply (find_Some_elem_of less) in Hf. apply Hall in Hf.
      by rewrite lt_irrefl in Hf.
    + intros k Hk. destruct (less k k0) eqn:Hlt.
      * destruct (find less k m') as [v|] eqn:Hf; [|done].
        apply (find_Some_elem_of less) in Hf. apply Hall in Hf.
        by rewrite (lt_asym less _ _ Hf) in Hlt.
      * destruct (less k0 k) eqn:Hgt; [done|].
        by destruct Hk; apply (lt_connected (lt:=less)).
  - intros fuel Hfuel. rewrite drain_all by done.
    repeat split; try done.
    by apply increasing_nondecreasing, ordered_keys_increasing.
Qed.

End remove_top_facts.

Section remove_top_examples.
Import ThreadSafeMap.

(** C1, as stated, fails for an [M] that does not iterate in key order.
    [remove_top] takes whatever [begin()] points at; a hash map such as
    [std::unordered_map] that holds the keys 5, 2 and 9 and iterates them as
    9, 2, 5 hands out key 9 although the smaller keys 2 and 5 are present. *)
Lemma remove_top_first_is_not_minimum :
  remove_top [(9, 90); (2, 20); (5, 50)] 0 0
  = Removed true 9 90 [(2, 20); (5, 50)]
  ∧ (2, 20) ∈ [(9, 90); (2, 20); (5, 50)]
  ∧ (2 <? key_out (remove_top [(9, 90); (2, 20); (5, 50)] 0 0)) = true
  ∧ ¬ (∀ k v, (k, v) ∈ [(9, 90); (2, 20); (5, 50)] →
         k = key_out (remove_top [(9, 90); (2, 20); (5, 50)] 0 0)
         ∨ (key_out (remove_top [(9, 90); (2, 20); (5, 50)] 0 0) <? k)
           = true).
Proof.
  repeat split.
  - right; left.
  - intros Hmin. destruct (Hmin 2 20) as [?|?]; [right; left|done..].
Qed.

(** The map obtained by inserting 5, 2 and 9 (in that order) is ordered;
    [remove_top] hands out key 2, which is below 5 and 9, and draining the
    map yields 2, 5, 9. *)
Lemma remove_top_takes_minimum_witness :
  let m := emplace Z.ltb 9 90 (emplace Z.ltb 2 20 (emplace Z.ltb 5 50 create))
  in
  ordered Z.ltb m
  ∧ key_out (remove_top m 0 0) = 2
  ∧ (∀ k v, (k, v) ∈ m → k = 2 ∨ (2 <? k) = true)
  ∧ drain 3 m 0 0 = ([2; 5; 9], [])
  ∧ nondecreasing Z.ltb [2; 5; 9].
Proof.
  intros m.
  assert (Hord : ordered Z.ltb m) by (vm_compute; repeat constructor).
  assert (Hkeys : drain 3 m 0 0 = ([2; 5; 9], [])) by reflexivity.
  destruct (remove_top_takes_minimum Z.ltb m 0 0 Hord) as [Hmin Hdrain].
  specialize (Hmin ltac:(discriminate)). specialize (Hdrain 3%nat (le_n 3)).
  rewrite Hkeys in Hdrain.
  destruct Hmin as (_ & _ & Hbelow & _). destruct Hdrain as (Hnd & _).
  repeat split; [exact Hord|exact Hbelow|exact Hnd].
Defined.
End remove_top_examples.

(** ** ThreadSafeMap: insert_max *)

Section insert_max_facts.
Import ThreadSafeMap.
Context {K V : Type} (less : K → K → bool) (greater : V → V → bool).
Context `{!StrictTotal less} `{!StrictTotal greater}.
Implicit Types (m : M (K:=K) (V:=V)) (k key : K) (v value : V).

Lemma same_key_iff key k :
  less key k || less k key = false ↔ key = k.
Proof.
  split.
  - intros [??]%orb_false_elim. by apply (lt_connected (lt:=less)).
  - intros ->. by rewrite (lt_irrefl (lt:=less)).
Qed.

Lemma find_insert_max_eq key value m :
  find less key (insert_max less greater key value m)
  = raise greater (find less key m) value.
Proof.
  unfold insert_max, raise.
  destruct (find less key m) as [stored|] eqn:Hf.
  - destruct (greater value stored).
    + by rewrite (find_assign_eq less), Hf.
    + done.
  - by rewrite (find_emplace_eq less), Hf.
Qed.

Lemma find_insert_max_ne key value k' m :
  k' ≠ key →
  find less k' (insert_max less greater key value m) = find less k' m.
Proof.
  intros Hne. unfold insert_max.
  destruct (find less key m) as [stored|].
  - destruct (greater value stored); [|done].
    by apply (find_assign_ne less).
  - by apply (find_emplace_ne less).
Qed.

Lemma elem_of_offered key value calls :
  value ∈ offered less key calls ↔ (key, value) ∈ calls.
Proof.
  unfold offered. rewrite list_elem_of_omap. split.
  - intros ([k v] & Hin & Hsome). simpl in Hsome.
    destruct (less key k || less k key) eqn:Hk; [done|].
    apply same_key_iff in Hk as ->. by injection Hsome as ->.
  - intros Hin. exists (key, value). split; [done|]. simpl.
    by rewrite (lt_irrefl (lt:=less)).
Qed.

Lemma find_insert_max_all key calls m :
  find less key (insert_max_all less greater calls m)
  = foldl (raise greater) (find less key m) (offered less key calls).
Proof.
  revert m. induction calls as [|[k v] calls IH]; intros m; [done|].
  unfold insert_max_all in *. simpl. rewrite IH.
  destruct (less key k || less k key) eqn:Hk; simpl.
  - rewrite find_insert_max_ne; [done|].
    intros ->. by rewrite (lt_irrefl (lt:=less)) in Hk.
  - apply same_key_iff in Hk as <-. by rewrite find_insert_max_eq.
Qed.

Lemma foldl_raise_is_max (stored : option V) (vs : list V) :
  match foldl (raise greater) stored vs with
  | None => stored = None ∧ vs = []
  | Some v =>
      (stored = Some v ∨ v ∈ vs)
      ∧ (∀ s, stored = Some s → s = v ∨ greater v s = true)
      ∧ (∀ v', v' ∈ vs → v' = v ∨ greater v v' = true)
  end.
Proof.
  revert stored. induction vs as [|x vs IH]; intros stored; simpl.
  - destruct stored as [s|]; [|done].
    repeat split; [by left|by intros ? [= ->]; left|by intros ? ?%elem_of_nil].
  - specialize (IH (raise greater stored x)).
    destruct (foldl _ _ vs) as [v|]; [|by destruct IH].
    destruct IH as (Hin & Hstored & Hvs).
    assert (Hx : x = v ∨ greater v x = true).
    { destruct (Hstored _ eq_refl) as [<-|Hgt].
      - destruct stored as [s|]; [|by left].
        destruct (greater x s) eqn:Hxs; [by left|].
        destruct (greater s x) eqn:Hsx; [by right|].
        left. by apply (lt_connected (lt:=greater)).
      - destruct stored as [s|]; [|by right].
        destruct (greater x s) eqn:Hxs; [by right|].
        destruct (greater s x) eqn:Hsx.
        + right. exact (lt_trans _ _ _ Hgt Hsx).
        + assert (x = s) as -> by by apply (lt_connected (lt:=greater)).
          by right. }
    repeat split.
    + destruct Hin as [Hv|Hin]; [|right; by right].
      destruct stored as [s|]; simpl in Hv; injection Hv as <-.
      * destruct (greater x s); [right; left|by left].
      * right; left.
    + intros s ->. destruct (Hstored _ eq_refl) as [Hv|Hgt].
      * destruct (greater x s) eqn:Hxs; [right; by subst|by left].
      * destruct (greater x s) eqn:Hxs; [|by right].
        right. exact (lt_trans _ _ _ Hgt Hxs).
    + intros v' [->|Hin']%elem_of_cons; auto.
Qed.

(** C4. One call of [insert_max(key, value)] inserts the pair when [key] is
    absent, replaces the stored value exactly when [value] is strictly
    greater, and touches no other key.  After any sequence of such calls on a
    freshly created map, a key is present iff a value was offered for it, and
    the value stored under it is one of the offered values and is greater
    than or equal to each of them. *)
Theorem insert_max_keeps_maximum (calls : list (K * V)) key :
  (∀ m value,
     (find less key m = None →
      find less key (insert_max less greater key value m) = Some value)
     ∧ (∀ stored, find less key m = Some stored →
        find less key (insert_max less greater key value m)
        = Some (if greater value stored then value else stored))
     ∧ (∀ k', k' ≠ key →
        find less k' (insert_max less greater key value m) = find less k' m))
  ∧ match find less key (insert_max_all less greater calls create) with
    | None => ∀ v, (key, v) ∉ calls
    | Some v =>
        (key, v) ∈ calls
        ∧ ∀ v', (key, v') ∈ calls → v' = v ∨ greater v v' = true
    end.
Proof.
  split.
  - intros m value. repeat split.
    + intros Hf. by rewrite find_insert_max_eq, Hf.
    + intros stored Hf. by rewrite find_insert_max_eq, Hf.
    + intros k' Hne. by apply find_insert_max_ne.
  - rewrite find_insert_max_all. simpl.
    pose proof (foldl_raise_is_max None (offered less key calls)) as Hmax.
    destruct (foldl _ _ _) as [v|].
    + destruct Hmax as ([?|Hin] & _ & Hall); [done|].
      split; [by apply elem_of_offered|].
      intros v' Hv'. by apply Hall, elem_of_offered.
    + destruct Hmax as [_ Hnil]. intros v Hin%elem_of_offered.
      rewrite Hnil in Hin. by apply elem_of_nil in Hin.
Qed.
End insert_max_facts.

Section insert_max_examples.
Import ThreadSafeMap.

(** Offers 5, 9 and 3 for key 1 (and 7 for key 2) leave 9 under key 1. *)
Lemma insert_max_keeps_maximum_witness :
  let calls := [(1, 5); (2, 7); (1, 9); (1, 3)] in
  find Z.ltb 1 (insert_max_all Z.ltb Z.gtb calls create) = Some 9
  ∧ ∀ v', (1, v') ∈ calls → v' = 9 ∨ (9 >? v') = true.
Proof.
  intros calls.
  destruct (insert_max_keeps_maximum Z.ltb Z.gtb calls 1) as [_ Hfinal].
  change (find Z.ltb 1 (insert_max_all Z.ltb Z.gtb calls create))
    with (Some 9) in Hfinal.
  destruct Hfinal as [_ Hall]. split; [reflexivity|exact Hall].
Defined.
End insert_max_examples.

(** ** ThreadSafeMap: remove_top on an empty map *)

Section remove_top_empty.
Import ThreadSafeMap.
Context {K V : Type}.
Implicit Types (m : M (K:=K) (V:=V)) (key : K) (value : V).

Lemma remove_top_again_empty (r : removed (K:=K) (V:=V)) :
  map_out r = [] →
  ret (remove_top_again r) = false ∧ map_out (remove_top_again r) = [].
Proof. unfold remove_top_again. by intros ->. Qed.

Lemma remove_top_repeat_empty m key value (n : nat) :
  size m = 0%nat →
  let r := Nat.iter n remove_top_again (remove_top m key value) in
  ret r = false ∧ map_out r = [].
Proof.
  intros Hm. destruct m; [|done].
  induction n as [|n [_ IH]]; simpl; [done|].
  by apply remove_top_again_empty.
Qed.

(** C9. [remove_top] on an empty map returns normally with [false], and
    keeps doing so however often the call is repeated; the map is still
    empty after each call. *)
Theorem remove_top_empty_reports_false m key value (n : nat) :
  size m = 0%nat →
  ret (remove_top m key value) = false
  ∧ ret (Nat.iter n remove_top_again (remove_top m key value)) = false
  ∧ size (map_out (Nat.iter n remove_top_again (remove_top m key value)))
    = 0%nat.
Proof.
  intros Hm.
  destruct (remove_top_repeat_empty m key value n Hm) as [Hret Hmap].
  destruct (remove_top_repeat_empty m key value 0 Hm) as [Hret0 _].
  repeat split; [done..|]. by rewrite Hmap.
Qed.

(** C10. On an empty map [remove_top] returns [false] with the map and both
    reference arguments exactly as they were passed in.  In general a
    [false] result means the map was empty and nothing was written; a [true]
    result means the arguments now hold the first entry of the map. *)
Theorem remove_top_empty_leaves_arguments m key value :
  (size m = 0%nat → remove_top m key value = Removed false key value m)
  ∧ (ret (remove_top m key value) = false →
     size m = 0%nat
     ∧ key_out (remove_top m key value) = key
     ∧ value_out (remove_top m key value) = value
     ∧ map_out (remove_top m key value) = m)
  ∧ (ret (remove_top m key value) = true →
     begin m
     = Some (key_out (remove_top m key value),
             value_out (remove_top m key value))).
Proof.
  destruct m as [|[k v] m]; simpl; repeat split; done.
Qed.
End remove_top_empty.

Section remove_top_empty_examples.
Import ThreadSafeMap.

(** Three further calls on a fresh map of integers still report [false]. *)
Lemma remove_top_empty_reports_false_witness :
  ret (remove_top (create : M (K:=Z) (V:=Z)) 7 8) = false
  ∧ ret (Nat.iter 3 remove_top_again
           (remove_top (create : M (K:=Z) (V:=Z)) 7 8)) = false
  ∧ size (map_out (Nat.iter 3 remove_top_again
                     (remove_top (create : M (K:=Z) (V:=Z)) 7 8))) = 0%nat.
Proof.
  apply (remove_top_empty_reports_false (create : M (K:=Z) (V:=Z)) 7 8 3).
  reflexivity.
Defined.

(** The arguments 7 and 8 come back untouched from a cleared map. *)
Lemma remove_top_empty_leaves_arguments_witness :
  remove_top (clear [(1, 10); (2, 20)]) 7 8 = Removed false 7 8 [].
Proof.
  apply (remove_top_empty_leaves_arguments (clear [(1, 10); (2, 20)]) 7 8).
  reflexivity.
Defined.
End remove_top_empty_examples.

(** ** Flag *)

Section flag_facts.
Import Flag.
Implicit Types (f : Flag) (ops : list op).

Lemma disarmed_apply o f : disarmed_ f = true → disarmed_ (apply o f) = true.
Proof. by destruct o. Qed.

Lemma disarmed_apply_all ops f :
  disarmed_ f = true → disarmed_ (apply_all ops f) = true.
Proof.
  revert f. induction ops as [|o ops IH]; intros f Hf; [done|].
  apply IH. by apply disarmed_apply.
Qed.

Lemma flag_clear_without_set ops f :
  flag_ f = false → forallb (λ o, negb (is_set_op o)) ops = true →
  flag_ (apply_all ops f) = false.
Proof.
  revert f. induction ops as [|o ops IH]; intros f Hf Hops; [done|].
  simpl in Hops. apply andb_prop in Hops as [Ho Hops].
  apply IH; [|done]. by destruct o.
Qed.

(** A caller of [wait()] that finds the flag clear stays blocked through any
    later operations on the flag among which there is no [set()], whether or
    not the flag is disarmed. *)
Lemma wait_blocked_without_set ops f :
  flag_ f = false → forallb (λ o, negb (is_set_op o)) ops = true →
  wait (apply_all ops f) = None.
Proof.
  intros Hf Hops. unfold wait, wait_pred.
  by rewrite (flag_clear_without_set ops f Hf Hops).
Qed.

(** C2, as stated, fails for [wait()]: on a flag that was never set,
    [disarm()] leaves the predicate of [wait()] false and the caller
    blocked. *)
Lemma disarm_does_not_release_wait :
  wait_pred (disarm (make false)) ≠ true
  ∧ wait (disarm (make false)) = None.
Proof. split; [discriminate|reflexivity]. Qed.

(** C2, amended. After [disarm()] the predicate of [wait_reset()] holds and
    keeps holding through any further operations, so a caller of
    [wait_reset()] is released even if [set()] never happens.  The predicate
    of [wait()] is [flag_] alone and [disarm()] does not change it.  A second
    [disarm()] changes nothing. *)
Theorem disarm_releases_wait_reset f ops :
  wait_reset_pred (disarm f) = true
  ∧ is_Some (wait_reset (disarm f))
  ∧ is_Some (wait_reset (apply_all ops (disarm f)))
  ∧ wait_pred (disarm f) = wait_pred f
  ∧ wait_pred f = flag_ f
  ∧ disarm (disarm f) = disarm f.
Proof.
  assert (Hperm : disarmed_ (apply_all ops (disarm f)) = true)
    by by apply disarmed_apply_all.
  repeat split.
  - unfold wait_reset_pred. simpl. apply orb_true_r.
  - unfold wait_reset, wait_reset_pred. simpl. rewrite orb_true_r. eauto.
  - unfold wait_reset, wait_reset_pred. rewrite Hperm, orb_true_r. eauto.
Qed.

(** C3, as stated, fails when the flag is both set and disarmed:
    [wait_reset()] wakes up and returns with the state still set. *)
Lemma wait_reset_keeps_set_when_disarmed :
  flag_ (disarm (make true)) = true
  ∧ wait_reset (disarm (make true)) = Some (disarm (make true)).
Proof. split; reflexivity. Qed.

(** C3, amended. [wait_reset()] wakes up exactly in the states where the
    flag is set or disarmed: in every such state the caller gets through, and
    in no other.  If the flag is not disarmed and the state is set, the call
    returns leaving the state clear; if the flag is disarmed, the call
    returns leaving the state as it found it, set or clear; if the flag is
    neither set nor disarmed, the caller stays blocked. *)
Theorem wait_reset_consumes_unless_disarmed f :
  (is_Some (wait_reset f) ↔ flag_ f = true ∨ disarmed_ f = true)
  ∧ (disarmed_ f = false → flag_ f = true →
     wait_reset f = Some {| flag_ := false; disarmed_ := false |})
  ∧ (disarmed_ f = true → wait_reset f = Some f)
  ∧ (disarmed_ f = false → flag_ f = false → wait_reset f = None)
  ∧ (∀ f', wait_reset f = Some f' →
     (flag_ f = true ∨ disarmed_ f = true)
     ∧ (disarmed_ f = false →
        flag_ f = true ∧ f' = {| flag_ := false; disarmed_ := false |})
     ∧ (disarmed_ f = true → f' = f)).
Proof.
  unfold wait_reset, wait_reset_pred. destruct f as [fl dis]. simpl.
  split; [|split; [|split; [|split]]].
  - destruct fl, dis; simpl; split;
      try (by eauto); try (by intros [? [=]]); by intros [[=]|[=]].
  - by intros -> ->.
  - intros ->. by rewrite orb_true_r.
  - by intros -> ->.
  - intros f'. destruct fl, dis; simpl; intros [= <-];
      repeat split; auto; discriminate.
Qed.

(** An armed, set flag lets the caller through and is consumed; a fresh
    flag blocks the caller. *)
Lemma wait_reset_consumes_unless_disarmed_witness :
  is_Some (wait_reset (make true))
  ∧ wait_reset (make true) = Some (make false)
  ∧ wait_reset (make false) = None.
Proof.
  destruct (wait_reset_consumes_unless_disarmed (make true))
    as (Hwake & Hfired & _).
  destruct (wait_reset_consumes_unless_disarmed (make false))
    as (_ & _ & _ & Hblocked & _).
  split; [apply Hwake; left; reflexivity|].
  split; [apply Hfired; reflexivity|apply Hblocked; reflexivity].
Defined.
End flag_facts.

(** ** atomic_maximum / atomic_minimum *)

Section atomic_facts.
Import Atomic.
Context (d : extremum).
Implicit Types (cell : Z) (t : thread) (p : pool) (sched : list (nat * bool)).

Lemma reaches_refl a : reaches d a a.
Proof. destruct d; simpl; lia. Qed.

Lemma reaches_trans a b c : reaches d a b → reaches d b c → reaches d a c.
Proof. destruct d; simpl; lia. Qed.

Lemma reaches_antisym a b : reaches d a b → reaches d b a → a = b.
Proof. destruct d; simpl; lia. Qed.

Lemma improves_false prev_val new_val :
  improves d prev_val new_val = false ↔ reaches d prev_val new_val.
Proof. destruct d; simpl; lia. Qed.

Lemma improves_true prev_val new_val :
  improves d prev_val new_val = true →
  reaches d new_val prev_val ∧ new_val ≠ prev_val.
Proof. destruct d; simpl; lia. Qed.

(** *** One action *)

Lemma thread_step_new_val b cell t :
  new_val_of (thread_step d b cell t).2 = new_val_of t.
Proof.
  destruct t as [c|pv c|c]; simpl; [done| |done].
  destruct (improves d pv c); [|done].
  unfold compare_exchange_weak. by destruct (_ && _).
Qed.

(** The cell changes only by a successful exchange, which stores the
    proposal over a strictly less extreme current value. *)
Lemma thread_step_cell b cell t :
  (thread_step d b cell t).1 = cell
  ∨ ((thread_step d b cell t).1 = new_val_of t
     ∧ improves d cell (new_val_of t) = true
     ∧ (thread_step d b cell t).2 = Exit (new_val_of t)).
Proof.
  destruct t as [c|pv c|c]; simpl; [by left| |by left].
  destruct (improves d pv c) eqn:Himp; [|by left].
  unfold compare_exchange_weak.
  destruct (cell =? pv) eqn:Heq; simpl; [|by left].
  destruct b; simpl; [by left|].
  apply Z.eqb_eq in Heq as ->. by right.
Qed.

Lemma thread_step_reaches b cell t :
  reaches d (thread_step d b cell t).1 cell.
Proof.
  destruct (thread_step_cell b cell t) as [->|(-> & Himp & _)].
  - apply reaches_refl.
  - by apply improves_true in Himp as [? _].
Qed.

Lemma thread_step_settled b cell t :
  settled d cell t →
  settled d (thread_step d b cell t).1 (thread_step d b cell t).2.
Proof.
  destruct t as [c|pv c|c]; simpl; [intros _; apply reaches_refl| |done].
  intros Hpv. destruct (improves d pv c) eqn:Himp; simpl.
  - unfold compare_exchange_weak.
    destruct ((cell =? pv) && negb b); simpl; apply reaches_refl.
  - apply improves_false in Himp. by apply (reaches_trans _ pv).
Qed.

Lemma settled_mono cell cell' t :
  reaches d cell' cell → settled d cell t → settled d cell' t.
Proof.
  intros Hcell. destruct t; simpl; [done|..]; by apply reaches_trans.
Qed.

Lemma thread_step_exit b cell c :
  thread_step d b cell (Exit c) = (cell, Exit c).
Proof. done. Qed.

(** Starting at the loop condition with nobody interfering, two more
    actions without spurious failure leave the loop. *)
Lemma thread_step_thrice cell t :
  let r1 := thread_step d false cell t in
  let r2 := thread_step d false r1.1 r1.2 in
  let r3 := thread_step d false r2.1 r2.2 in
  r3.2 = Exit (new_val_of t).
Proof.
  destruct t as [c|pv c|c]; simpl; [| |done].
  - destruct (improves d cell c); simpl; [|done].
    unfold compare_exchange_weak. by rewrite Z.eqb_refl.
  - destruct (improves d pv c) eqn:Hpv; simpl; [|done].
    unfold compare_exchange_weak.
    destruct (cell =? pv) eqn:Heq; simpl; [done|].
    destruct (improves d cell c); simpl; [|done].
    unfold compare_exchange_weak. by rewrite Z.eqb_refl.
Qed.

(** *** A call running alone *)

Lemma run_alone_exit oracle cell c :
  run_alone d oracle cell (Exit c) = (cell, Exit c).
Proof. induction oracle as [|b oracle IH]; simpl; done. Qed.

Lemma run_alone_loop oracle cell c :
  let r := run_alone d oracle cell (Loop cell c) in
  (r.2 = Loop cell c ∨ r.2 = Exit c)
  ∧ r.1 = (if exited r.2 && improves d cell c then c else cell).
Proof.
  induction oracle as [|b oracle IH]; simpl; [by split; [left|]|].
  destruct (improves d cell c) eqn:Himp.
  - unfold compare_exchange_weak. rewrite Z.eqb_refl. destruct b; simpl.
    + exact IH.
    + rewrite run_alone_exit. simpl. by split; [right|].
  - rewrite run_alone_exit. simpl. by split; [right|].
Qed.

Lemma run_alone_entry oracle cell c :
  let r := run_alone d oracle cell (Entry c) in
  r.1 = (if exited r.2 && improves d cell c then c else cell).
Proof.
  destruct oracle as [|b oracle]; simpl.
  - done.
  - apply run_alone_loop.
Qed.

Lemma run_alone_returns b cell c :
  run_alone d [b; false] cell (Entry c)
  = (if improves d cell c then c else cell, Exit c).
Proof.
  simpl. destruct (improves d cell c); [|done].
  unfold compare_exchange_weak. by rewrite Z.eqb_refl.
Qed.
End atomic_facts.

Section pool_facts.
Import Atomic.
Context (d : extremum).
Implicit Types (cell : Z) (t : thread) (p : pool) (sched : list (nat * bool)).

Lemma step_unfold i b p t :
  p.2 !! i = Some t →
  step d i b p
  = ((thread_step d b p.1 t).1, <[i := (thread_step d b p.1 t).2]> p.2).
Proof.
  intros Ht. unfold step. rewrite Ht. by destruct (thread_step d b p.1 t).
Qed.

Lemma step_idle i b p : p.2 !! i = None → step d i b p = p.
Proof. intros Ht. unfold step. by rewrite Ht. Qed.

Lemma run_app sched1 sched2 p :
  run d (sched1 ++ sched2) p = run d sched2 (run d sched1 p).
Proof. apply foldl_app. Qed.

Lemma run_cons i b sched p :
  run d ((i, b) :: sched) p = run d sched (step d i b p).
Proof. done. Qed.

Lemma step_length i b p : length (step d i b p).2 = length p.2.
Proof.
  destruct (p.2 !! i) as [t|] eqn:Ht.
  - rewrite (step_unfold _ _ _ _ Ht). simpl. apply length_insert.
  - by rewrite step_idle.
Qed.

Lemma run_length sched p : length (run d sched p).2 = length p.2.
Proof.
  revert p. induction sched as [|[i b] sched IH]; intros p; [done|].
  rewrite run_cons, IH. apply step_length.
Qed.

(** *** Monotonicity *)

Lemma step_reaches i b p : reaches d (step d i b p).1 p.1.
Proof.
  destruct (p.2 !! i) as [t|] eqn:Ht.
  - rewrite (step_unfold _ _ _ _ Ht). apply thread_step_reaches.
  - rewrite step_idle by done. apply reaches_refl.
Qed.

Lemma run_reaches sched p : reaches d (run d sched p).1 p.1.
Proof.
  revert p. induction sched as [|[i b] sched IH]; intros p.
  - apply reaches_refl.
  - rewrite run_cons.
    eapply reaches_trans; [apply IH|apply step_reaches].
Qed.

(** *** The invariant *)

Lemma consistent_start cell0 proposals :
  consistent d cell0 proposals (start cell0 proposals).
Proof.
  unfold consistent, start. simpl. repeat split.
  - rewrite <-list_fmap_compose. by induction proposals; simpl; f_equal.
  - apply reaches_refl.
  - left.
  - apply Forall_fmap. by apply Forall_true.
Qed.

Lemma consistent_step cell0 proposals i b p :
  consistent d cell0 proposals p → consistent d cell0 proposals (step d i b p).
Proof.
  intros (Hprop & Hback & Hin & Hall).
  destruct (p.2 !! i) as [t|] eqn:Ht; [|by rewrite step_idle].
  rewrite (step_unfold _ _ _ _ Ht). unfold consistent. simpl.
  assert (Hc : new_val_of t ∈ proposals).
  { rewrite <-Hprop. apply list_elem_of_fmap_2.
    by apply list_elem_of_lookup_2 in Ht. }
  repeat split.
  - rewrite list_fmap_insert, thread_step_new_val.
    rewrite list_insert_id; [done|]. by rewrite list_lookup_fmap, Ht.
  - eapply reaches_trans; [apply thread_step_reaches|done].
  - destruct (thread_step_cell d b p.1 t) as [->|(-> & _)]; [done|].
    by right.
  - apply Forall_insert.
    + eapply Forall_impl; [exact Hall|]. intros u.
      apply settled_mono, thread_step_reaches.
    + apply thread_step_settled. by eapply Forall_lookup_1.
Qed.

Lemma consistent_run cell0 proposals sched p :
  consistent d cell0 proposals p →
  consistent d cell0 proposals (run d sched p).
Proof.
  revert p. induction sched as [|[i b] sched IH]; intros p Hp; [done|].
  rewrite run_cons. by apply IH, consistent_step.
Qed.

(** *** The extremum *)

Lemma best_reaches_l a b : reaches d (best d a b) a.
Proof. destruct d; simpl; lia. Qed.

Lemma best_reaches_r a b : reaches d (best d a b) b.
Proof. destruct d; simpl; lia. Qed.

Lemma best_cases a b : best d a b = a ∨ best d a b = b.
Proof. destruct d; simpl; lia. Qed.

Lemma best_of_elem init proposals :
  best_of d init proposals ∈ init :: proposals.
Proof.
  induction proposals as [|c cs IH]; simpl; [left|].
  destruct (best_cases c (best_of d init cs)) as [->| ->].
  - right; left.
  - apply elem_of_cons in IH as [->|?]; [left|right; by right].
Qed.

Lemma best_of_reaches init proposals x :
  x ∈ init :: proposals → reaches d (best_of d init proposals) x.
Proof.
  induction proposals as [|c cs IH]; simpl.
  - intros ->%list_elem_of_singleton. apply reaches_refl.
  - intros Hx.
    assert (x = c ∨ x ∈ init :: cs) as [->|Hx'].
    { apply elem_of_cons in Hx as [->|Hx]; [right; left|].
      apply elem_of_cons in Hx as [->|Hx]; [by left|right; by right]. }
    + apply best_reaches_l.
    + eapply reaches_trans; [apply best_reaches_r|by apply IH].
Qed.

Lemma consistent_exit cell0 proposals p i c :
  consistent d cell0 proposals p → p.2 !! i = Some (Exit c) →
  reaches d p.1 c.
Proof.
  intros (_ & _ & _ & Hall) Hi. exact (Forall_lookup_1 _ _ _ _ Hall Hi).
Qed.

Lemma consistent_final cell0 proposals p :
  consistent d cell0 proposals p → forallb exited p.2 = true →
  p.1 = best_of d cell0 proposals.
Proof.
  intros Hp Hexit. pose proof Hp as (Hprop & Hback & Hin & Hall).
  apply (reaches_antisym d).
  - pose proof (best_of_elem cell0 proposals) as Hbest.
    set (x := best_of d cell0 proposals) in *. clearbody x.
    apply elem_of_cons in Hbest as [->|Hbest]; [done|].
    rewrite <-Hprop in Hbest.
    apply list_elem_of_fmap in Hbest as (t & -> & [i Hi]%list_elem_of_lookup).
    rewrite forallb_forall in Hexit.
    assert (exited t = true) as Hte.
    { apply Hexit, list_elem_of_In. by eapply list_elem_of_lookup_2. }
    destruct t as [| |c]; [done..|]. by eapply consistent_exit.
  - by apply best_of_reaches.
Qed.

(** *** Completion *)

Lemma step_exit_stable i b p j c :
  p.2 !! j = Some (Exit c) → (step d i b p).2 !! j = Some (Exit c).
Proof.
  intros Hj. destruct (p.2 !! i) as [t|] eqn:Ht; [|by rewrite step_idle].
  rewrite (step_unfold _ _ _ _ Ht). simpl.
  destruct (decide (i = j)) as [->|Hne].
  - rewrite Hj in Ht. injection Ht as <-.
    by rewrite thread_step_exit, list_insert_id.
  - by rewrite list_lookup_insert_ne.
Qed.

Lemma run_exit_stable sched p j c :
  p.2 !! j = Some (Exit c) → (run d sched p).2 !! j = Some (Exit c).
Proof.
  revert p. induction sched as [|[i b] sched IH]; intros p Hj; [done|].
  rewrite run_cons. by apply IH, step_exit_stable.
Qed.

Lemma step_lookup_self i b p t :
  p.2 !! i = Some t →
  (step d i b p).2 !! i = Some (thread_step d b p.1 t).2.
Proof.
  intros Ht. rewrite (step_unfold _ _ _ _ Ht). simpl.
  apply list_lookup_insert_eq. by eapply lookup_lt_Some.
Qed.

Lemma run_solo_exits i p t :
  p.2 !! i = Some t →
  (run d [(i, false); (i, false); (i, false)] p).2 !! i
  = Some (Exit (new_val_of t)).
Proof.
  intros Ht. rewrite !run_cons. simpl.
  pose proof (step_lookup_self i false p t Ht) as H1.
  pose proof (step_lookup_self i false _ _ H1) as H2.
  pose proof (step_lookup_self i false _ _ H2) as H3.
  rewrite H3. f_equal.
  rewrite (step_unfold i false (step d i false p) _ H1).
  rewrite (step_unfold i false p _ Ht). simpl.
  apply thread_step_thrice.
Qed.

Lemma run_each_exits (l : list nat) p i :
  i ∈ l → (i < length p.2)%nat →
  ∃ c, (run d (j ← l; [(j, false); (j, false); (j, false)]) p).2 !! i
       = Some (Exit c).
Proof.
  revert p. induction l as [|j l IH]; intros p Hi Hlen; [by inversion Hi|].
  rewrite bind_cons, run_app.
  destruct (decide (i = j)) as [->|Hne].
  - destruct (lookup_lt_is_Some_2 _ _ Hlen) as [t Ht].
    exists (new_val_of t). by apply run_exit_stable, run_solo_exits.
  - apply IH; [|by rewrite run_length].
    apply elem_of_cons in Hi as [?|?]; done.
Qed.

Lemma run_finish_exits p :
  forallb exited (run d (finish (length p.2)) p).2 = true.
Proof.
  apply forallb_forall. intros t [i Hi]%list_elem_of_In%list_elem_of_lookup.
  pose proof (lookup_lt_Some _ _ _ Hi) as Hlen. rewrite run_length in Hlen.
  destruct (run_each_exits (seq 0 (length p.2)) p i) as [c Hc]; [|done|].
  - apply elem_of_seq. lia.
  - unfold finish in Hi. rewrite Hc in Hi. by injection Hi as <-.
Qed.
End pool_facts.

Section atomic_extremum.
Import Atomic.

(** Two threads propose 5 and 9 for a maximum over a cell holding 3.  Both
    load 3; the second stores 9; the exchange of the first then fails, reloads
    9 and gives up since 5 is not above 9. *)
Example atomic_maximum_interleaved :
  run Maximum [(0, false); (1, false); (1, false); (0, false); (0, false)]%nat
    (start 3 [5; 9])
  = (9, [Exit 5; Exit 9]).
Proof. reflexivity. Qed.

(** A spurious failure only costs a retry. *)
Example atomic_minimum_spurious :
  atomic_minimum [false; true; true; false] 8 2 = (2, Exit 2).
Proof. reflexivity. Qed.

(** C5. A call of [atomic_maximum] ([atomic_minimum]) that runs undisturbed
    leaves the cell holding the candidate exactly when the candidate is
    greater (less) than the value found, and unchanged otherwise; spurious
    failures only delay it.  With one thread per proposal and any
    interleaving: an action changes the cell only by storing that thread's
    proposal over a strictly less extreme value; the cell never moves back,
    neither from its initial value nor past the proposal of a call that has
    returned; once all calls have returned the cell holds the extremum of
    the initial value and all proposals; and from every reachable state all
    calls can be brought to return. *)
Theorem atomic_extremum_converges (d : extremum) (cell : Z)
    (proposals : list Z) (sched : list (nat * bool)) :
  let p := run d sched (start cell proposals) in
  (∀ oracle s c,
     (atomic_maximum oracle s c).1
     = if exited (atomic_maximum oracle s c).2 && (s <? c) then c else s)
  ∧ (∀ oracle s c,
       (atomic_minimum oracle s c).1
       = if exited (atomic_minimum oracle s c).2 && (s >? c) then c else s)
  ∧ (∀ b s c,
       atomic_maximum [b; false] s c = (if s <? c then c else s, Exit c)
       ∧ atomic_minimum [b; false] s c = (if s >? c then c else s, Exit c))
  ∧ (∀ i b,
       (step d i b p).1 = p.1
       ∨ ∃ t, p.2 !! i = Some t
              ∧ (step d i b p).1 = new_val_of t
              ∧ improves d p.1 (new_val_of t) = true)
  ∧ reaches d p.1 cell
  ∧ (∀ more, reaches d (run d more p).1 p.1)
  ∧ (∀ i c more, p.2 !! i = Some (Exit c) → reaches d (run d more p).1 c)
  ∧ (forallb exited p.2 = true → p.1 = best_of d cell proposals)
  ∧ (let q := run d (finish (length proposals)) p in
     forallb exited q.2 = true ∧ q.1 = best_of d cell proposals).
Proof.
  intros p.
  assert (Hp : consistent d cell proposals p)
    by apply consistent_run, consistent_start.
  assert (Hlen : length p.2 = length proposals).
  { unfold p. rewrite run_length. unfold start. simpl. apply length_fmap. }
  repeat split.
  - intros. apply (run_alone_entry Maximum).
  - intros. apply (run_alone_entry Minimum).
  - apply (run_alone_returns Maximum).
  - apply (run_alone_returns Minimum).
  - intros i b. destruct (p.2 !! i) as [t|] eqn:Ht.
    + rewrite (step_unfold d _ _ _ _ Ht). simpl.
      destruct (thread_step_cell d b p.1 t) as [?|(? & ? & _)]; [by left|].
      right. by exists t.
    + left. by rewrite step_idle.
  - by destruct Hp as (_ & ? & _).
  - intros more. apply run_reaches.
  - intros i c more Hi.
    eapply consistent_exit; [by apply consistent_run|].
    by apply run_exit_stable.
  - by apply consistent_final.
  - rewrite <-Hlen. apply run_finish_exits.
  - apply consistent_final; [by apply consistent_run|].
    rewrite <-Hlen. apply run_finish_exits.
Qed.
End atomic_extremum.

(** ** Caffe *)

Section caffe_facts.
Import Caffe.
Implicit Types (c : Caffe) (recs : list Z) (sched : list (nat * bool)).

Lemma epoch_count_unset_value : epoch_count_unset = 2 ^ 64 - 1.
Proof. reflexivity. Qed.

Lemma epoch_count_not_unset c : epoch_count c ≠ epoch_count_unset.
Proof.
  unfold epoch_count. fold epoch_count_unset.
  destruct (epoch_count_ c =? epoch_count_unset) eqn:Heq.
  - rewrite epoch_count_unset_value. lia.
  - by apply Z.eqb_neq.
Qed.

Lemma minimum_of_reports recs e :
  e ∈ recs → e < epoch_count_unset →
  let least := Atomic.best_of Atomic.Minimum epoch_count_unset recs in
  least < epoch_count_unset ∧ least ∈ recs ∧ ∀ e', e' ∈ recs → least ≤ e'.
Proof.
  intros He Hlt least.
  assert (Hall : ∀ x, x ∈ epoch_count_unset :: recs → least ≤ x).
  { intros x Hx.
    exact (best_of_reaches Atomic.Minimum epoch_count_unset recs x Hx). }
  assert (Hleast : least < epoch_count_unset).
  { specialize (Hall e ltac:(by right)). lia. }
  repeat split; [done| |by intros e' ?; apply Hall; right].
  pose proof (best_of_elem Atomic.Minimum epoch_count_unset recs) as Hin.
  fold least in Hin. apply elem_of_cons in Hin as [Heq|Hin]; [lia|done].
Qed.

Lemma epoch_count_after_reports c recs sched e :
  epoch_count_ c = epoch_count_unset → e ∈ recs → e < epoch_count_unset →
  forallb Atomic.exited (report_epoch_count recs sched c).2 = true →
  epoch_count (report_epoch_count recs sched c).1 ∈ recs
  ∧ ∀ e', e' ∈ recs → epoch_count (report_epoch_count recs sched c).1 ≤ e'.
Proof.
  intros Hc He Hlt Hexit. unfold report_epoch_count in *. simpl in *.
  rewrite Hc in *.
  pose proof (consistent_final Atomic.Minimum epoch_count_unset recs _
    (consistent_run _ _ _ sched _ (consistent_start _ _ _)) Hexit) as Hfinal.
  destruct (minimum_of_reports recs e He Hlt) as (Hleast & Hin & Hall).
  unfold epoch_count. simpl. fold epoch_count_unset. rewrite Hfinal.
  destruct (_ =? _) eqn:Heq; [apply Z.eqb_eq in Heq; lia|done].
Qed.

(** C6. While the counter holds the unset value, [epoch_count()] returns 0;
    it never returns the unset value [(size_t)-1] itself.  After calls of
    [report_epoch_count], at least one of them with a value below the unset
    value, and however they were interleaved, [epoch_count()] returns the
    least of the reported values once the calls have returned (and they can
    always be brought to return). *)
Theorem epoch_count_unset_reads_zero c recs sched e :
  epoch_count_ c = epoch_count_unset → e ∈ recs → e < epoch_count_unset →
  epoch_count c = 0
  ∧ epoch_count_unset = 2 ^ 64 - 1
  ∧ (∀ c', epoch_count c' ≠ epoch_count_unset)
  ∧ (forallb Atomic.exited (report_epoch_count recs sched c).2 = true →
     epoch_count (report_epoch_count recs sched c).1 ∈ recs
     ∧ ∀ e', e' ∈ recs →
         epoch_count (report_epoch_count recs sched c).1 ≤ e')
  ∧ (let r := report_epoch_count recs
                (sched ++ Atomic.finish (length recs)) c in
     forallb Atomic.exited r.2 = true
     ∧ epoch_count r.1 ∈ recs
     ∧ ∀ e', e' ∈ recs → epoch_count r.1 ≤ e').
Proof.
  intros Hc He Hlt.
  assert (Hdone : forallb Atomic.exited
    (report_epoch_count recs (sched ++ Atomic.finish (length recs)) c).2
    = true).
  { unfold report_epoch_count. simpl. rewrite run_app.
    replace (length recs) with
      (length (Atomic.run Atomic.Minimum sched
                 (Atomic.start (epoch_count_ c) recs)).2).
    - apply run_finish_exits.
    - rewrite run_length. unfold Atomic.start. simpl. apply length_fmap. }
  repeat split.
  - unfold epoch_count. by rewrite Hc.
  - apply epoch_count_not_unset.
  - by eapply epoch_count_after_reports.
  - intros e' He'. revert e' He'. by eapply epoch_count_after_reports.
  - done.
  - by eapply epoch_count_after_reports.
  - intros e' He'. revert e' He'. by eapply epoch_count_after_reports.
Qed.

(** C7. Whatever list is passed, [set_gpus] leaves [gpus_] non-empty: an
    empty list yields exactly the root device, a non-empty list is taken as
    it is.  Nothing else changes. *)
Theorem set_gpus_never_empty (gpus : list Z) c :
  gpus_ (set_gpus gpus c) ≠ []
  ∧ gpus_ (set_gpus [] c) = [root_device_ c]
  ∧ (∀ g gs, gpus_ (set_gpus (g :: gs) c) = g :: gs)
  ∧ 1 ≤ device_in_use_per_host_count (set_gpus gpus c)
  ∧ root_device_ (set_gpus gpus c) = root_device_ c
  ∧ mode_ (set_gpus gpus c) = mode_ c.
Proof.
  repeat split; try done.
  - by destruct gpus.
  - unfold device_in_use_per_host_count. destruct gpus; simpl; lia.
Qed.

Lemma Brew_eqb_eq (a b : Brew) : Brew_eqb a b = true ↔ a = b.
Proof. destruct a, b; simpl; split; done. Qed.

(** C8. [set_mode] with the current mode returns at once: the state is the
    same and [init()] is not called.  With a different mode it stores the new
    mode and calls [init()] exactly once, on the state holding the new mode;
    as [init()] does not write the mode, the mode afterwards is the new
    one. *)
Theorem set_mode_reinitializes_on_change (init : Caffe → Caffe) c (m : Brew) :
  (∀ c', mode_ (init c') = mode_ c') →
  set_mode init (mode_ c) c = (c, 0%nat)
  ∧ (mode_ c ≠ m →
     set_mode init m c = (init (with_mode m c), 1%nat)
     ∧ mode_ (set_mode init m c).1 = m
     ∧ (set_mode init m c).2 = 1%nat).
Proof.
  intros Hinit. unfold set_mode. split.
  - by rewrite (proj2 (Brew_eqb_eq _ _) eq_refl).
  - intros Hne. destruct (Brew_eqb (mode_ c) m) eqn:Heq.
    + by apply Brew_eqb_eq in Heq.
    + simpl. by rewrite Hinit.
Qed.
End caffe_facts.

Section caffe_examples.
Import Caffe.

(** Three workers report epochs 7, 3 and 5 to a fresh counter; the second
    worker overtakes the first, whose exchange then fails and is retried. *)
Lemma epoch_count_unset_reads_zero_witness :
  let c := {| mode_ := GPU; root_device_ := 0; gpus_ := [0; 1];
              solver_count_ := 2; epoch_count_ := epoch_count_unset |} in
  let sched := [(0, false); (1, false); (1, false); (2, true); (0, false);
                (0, false); (2, false)]%nat in
  epoch_count c = 0
  ∧ (report_epoch_count [7; 3; 5] sched c).2
    = [Atomic.Exit 7; Atomic.Exit 3; Atomic.Exit 5]
  ∧ epoch_count (report_epoch_count [7; 3; 5] sched c).1 ∈ [7; 3; 5]
  ∧ ∀ e', e' ∈ [7; 3; 5] →
      epoch_count (report_epoch_count [7; 3; 5] sched c).1 ≤ e'.
Proof.
  intros c sched.
  destruct (epoch_count_unset_reads_zero c [7; 3; 5] sched 3)
    as (Hzero & _ & _ & Hmin & _);
    [reflexivity|repeat constructor|reflexivity|].
  destruct (Hmin eq_refl) as [Hin Hleast].
  split; [exact Hzero|]. split; [reflexivity|]. split; [exact Hin|exact Hleast].
Defined.

(** With an [init()] that leaves the state alone: switching from CPU to GPU
    stores GPU and calls [init()] once; asking for CPU again does nothing. *)
Lemma set_mode_reinitializes_on_change_witness :
  let c := {| mode_ := CPU; root_device_ := 0; gpus_ := [0];
              solver_count_ := 1; epoch_count_ := epoch_count_unset |} in
  set_mode (λ c', c') CPU c = (c, 0%nat)
  ∧ set_mode (λ c', c') GPU c = (with_mode GPU c, 1%nat).
Proof.
  intros c.
  destruct (set_mode_reinitializes_on_change (λ c', c') c GPU) as [Hsame Hnew];
    [reflexivity|].
  destruct (Hnew ltac:(discriminate)) as (Hcall & _).
  split; [exact Hsame|exact Hcall].
Defined.
End caffe_examples.

(** * Further properties *)

(** ** ThreadSafeMap: the remaining operations *)

Section map_more_facts.
Import ThreadSafeMap.
Context {K V : Type} (less : K → K → bool) `{!StrictTotal less}.
Implicit Types (m : M (K:=K) (V:=V)) (k key : K) (v value : V).

Ltac compare_keys key k :=
  let Hlt := fresh "Hlt" in
  let Hgt := fresh "Hgt" in
  destruct (less key k) eqn:Hlt;
    [ pose proof (lt_asym less _ _ Hlt)
    | destruct (less k key) eqn:Hgt;
      [ | pose proof (lt_connected _ _ Hlt Hgt); subst ] ].

Lemma find_below_all key m :
  (∀ k v, (k, v) ∈ m → less key k = true) → find less key m = None.
Proof.
  intros Hall. destruct (find less key m) as [v|] eqn:Hf; [|done].
  apply (find_Some_elem_of less) in Hf. apply Hall in Hf.
  by rewrite lt_irrefl in Hf.
Qed.

Lemma find_outside key k v m :
  ordered less ((k, v) :: m) → less key k = true → find less key m = None.
Proof.
  intros [_ Hall]%(ordered_cons_inv less) Hlt. apply find_below_all.
  intros k' v' Hin. exact (lt_trans _ _ _ Hlt (Hall _ _ Hin)).
Qed.

(** Two ordered maps holding the same value (or none) under every key are
    the same map. *)
Lemma ordered_ext m1 m2 :
  ordered less m1 → ordered less m2 →
  (∀ k, find less k m1 = find less k m2) → m1 = m2.
Proof.
  revert m2. induction m1 as [|[k1 v1] m1 IH]; intros [|[k2 v2] m2] H1 H2 Hf.
  - done.
  - specialize (Hf k2). simpl in Hf. by rewrite !lt_irrefl in Hf.
  - specialize (Hf k1). simpl in Hf. by rewrite !lt_irrefl in Hf.
  - pose proof H1 as [H1' Hall1]%(ordered_cons_inv less).
    pose proof H2 as [H2' Hall2]%(ordered_cons_inv less).
    assert (k1 = k2 ∧ v1 = v2) as [-> ->].
    { pose proof (Hf k1) as Hk1. pose proof (Hf k2) as Hk2. simpl in *.
      rewrite !lt_irrefl in Hk1, Hk2.
      destruct (less k1 k2) eqn:H12; [done|].
      destruct (less k2 k1) eqn:H21; [done|].
      split; [by apply (lt_connected (lt:=less))|by injection Hk1]. }
    f_equal. apply IH; [done..|]. intros k.
    specialize (Hf k). simpl in Hf.
    destruct (less k k2) eqn:Hlt.
    + by rewrite (find_outside k k2 v2 m1), (find_outside k k2 v2 m2).
    + destruct (less k2 k) eqn:Hgt; [done|].
      pose proof (lt_connected _ _ Hlt Hgt) as ->.
      rewrite !find_below_all; done.
Qed.

Lemma size_emplace key value m :
  size (emplace less key value m)
  = match find less key m with Some _ => size m | None => S (size m) end.
Proof.
  unfold size. induction m as [|[k v] m IH]; simpl; [done|].
  compare_keys key k; simpl; [done| |done].
  rewrite IH. by destruct (find less key m).
Qed.

Lemma emplace_present key value m :
  is_Some (find less key m) → emplace less key value m = m.
Proof.
  induction m as [|[k v] m IH]; simpl; [by intros [? ?]|].
  compare_keys key k; [by intros [? ?]| |done].
  intros Hs. by rewrite IH.
Qed.

Lemma find_erase_eq key m :
  ordered less m → find less key (erase less key m) = None.
Proof.
  induction m as [|[k v] m IH]; simpl; intros Hord; [done|].
  pose proof Hord as [Hm Hall]%(ordered_cons_inv less).
  compare_keys key k; simpl.
  - by rewrite Hlt.
  - rewrite Hlt, Hgt. auto.
  - by apply find_below_all.
Qed.

Lemma find_erase_ne key k' m :
  ordered less m → k' ≠ key →
  find less k' (erase less key m) = find less k' m.
Proof.
  intros Hord Hne. induction m as [|[k v] m IH]; simpl; [done|].
  pose proof Hord as [Hm Hall]%(ordered_cons_inv less).
  compare_keys key k; simpl; [done|by rewrite IH|].
  compare_keys k' k; [|done|done].
  by apply (find_outside k' k v m).
Qed.

Lemma size_erase key m :
  size m
  = (size (erase less key m)
     + match find less key m with Some _ => 1 | None => 0 end)%nat.
Proof.
  unfold size. induction m as [|[k v] m IH]; simpl; [done|].
  compare_keys key k; simpl; [lia| |lia].
  rewrite IH. lia.
Qed.

Lemma erase_absent key m : find less key m = None → erase less key m = m.
Proof.
  induction m as [|[k v] m IH]; simpl; [done|].
  compare_keys key k; [done| |done]. intros Hf. by rewrite IH.
Qed.

Lemma erase_emplace key value m :
  find less key m = None → erase less key (emplace less key value m) = m.
Proof.
  induction m as [|[k v] m IH]; simpl.
  - by rewrite lt_irrefl.
  - compare_keys key k; simpl.
    + by rewrite lt_irrefl.
    + intros Hf. by rewrite Hlt, Hgt, IH.
    + done.
Qed.

Lemma emplace_erase key value m :
  ordered less m → find less key m = Some value →
  emplace less key value (erase less key m) = m.
Proof.
  induction m as [|[k v] m IH]; simpl; intros Hord; [done|].
  pose proof Hord as [Hm Hall]%(ordered_cons_inv less).
  compare_keys key k; simpl; [done| |].
  - intros Hf. by rewrite Hlt, Hgt, IH.
  - intros [= ->]. destruct m as [|[k1 v1] m]; simpl; [done|].
    by rewrite (Hall k1 v1) by left.
Qed.

Lemma elem_of_find_iff key value m :
  ordered less m → (key, value) ∈ m ↔ find less key m = Some value.
Proof.
  intros Hord. split; [by apply elem_of_find|apply find_Some_elem_of; done].
Qed.

Lemma keys_find key m :
  ordered less m → key ∈ m.*1 ↔ is_Some (find less key m).
Proof.
  intros Hord. rewrite list_elem_of_fmap. split.
  - intros ([k v] & -> & Hin). exists v. by apply elem_of_find.
  - intros [v Hf]. exists (key, v). split; [done|].
    by apply (find_Some_elem_of less).
Qed.
End map_more_facts.

Section map_extras.
Import ThreadSafeMap.
Context {K V : Type} (less : K → K → bool) `{!StrictTotal less}.
Implicit Types (m : M (K:=K) (V:=V)) (k key : K) (v value : V).

(** X1. [insert] (and [emplace]) never overwrites: a key that is present
    keeps its value and the map is unchanged; an absent key is added with the
    given value and the size grows by one.  Other keys are not affected and
    the map stays ordered. *)
Theorem insert_keeps_existing key value m :
  ordered less m →
  ordered less (insert less (key, value) m)
  ∧ find less key (insert less (key, value) m)
    = Some (default value (find less key m))
  ∧ (∀ k', k' ≠ key →
     find less k' (insert less (key, value) m) = find less k' m)
  ∧ size (insert less (key, value) m)
    = match find less key m with Some _ => size m | None => S (size m) end
  ∧ (is_Some (find less key m) → insert less (key, value) m = m).
Proof.
  intros Hord. unfold insert. simpl. repeat split.
  - by apply ordered_emplace.
  - apply (find_emplace_eq less).
  - intros k' Hne. by apply (find_emplace_ne less).
  - apply (size_emplace less).
  - apply (emplace_present less).
Qed.

(** X2. [erase(key)] removes the key and nothing else: afterwards the key is
    absent, every other key maps to what it mapped to before, the size drops
    by one exactly if the key was present, and erasing an absent key leaves
    the map as it was. *)
Theorem erase_removes_only_key key m :
  ordered less m →
  ordered less (erase less key m)
  ∧ find less key (erase less key m) = None
  ∧ (∀ k', k' ≠ key → find less k' (erase less key m) = find less k' m)
  ∧ size m
    = (size (erase less key m)
       + match find less key m with Some _ => 1 | None => 0 end)%nat
  ∧ (find less key m = None → erase less key m = m).
Proof.
  intros Hord. repeat split.
  - by apply ordered_erase.
  - by apply (find_erase_eq less).
  - intros k' Hne. by apply (find_erase_ne less).
  - apply (size_erase less).
  - apply (erase_absent less).
Qed.

(** X3. Inserting an absent key and erasing it again gives back the map;
    erasing a present key and inserting it again with its old value gives
    back the map. *)
Theorem insert_erase_round_trip key value m :
  ordered less m →
  (find less key m = None →
   erase less key (insert less (key, value) m) = m)
  ∧ (find less key m = Some value →
     insert less (key, value) (erase less key m) = m).
Proof.
  intros Hord. unfold insert. simpl. split.
  - apply (erase_emplace less).
  - by apply (emplace_erase less).
Qed.

(** X4. The subscript operator returns the value stored under the key; if the
    key is absent it first stores the value-initialised value and returns
    that.  Afterwards the key is present with the returned value, other keys
    are not affected, and a map that had the key is unchanged. *)
Theorem subscript_inserts_default (init : V) key m :
  ordered less m →
  ordered less (subscript less init key m).2
  ∧ (subscript less init key m).1 = default init (find less key m)
  ∧ find less key (subscript less init key m).2
    = Some (subscript less init key m).1
  ∧ (∀ k', k' ≠ key →
     find less k' (subscript less init key m).2 = find less k' m)
  ∧ (is_Some (find less key m) → (subscript less init key m).2 = m).
Proof.
  intros Hord. unfold subscript. simpl.
  rewrite (find_emplace_eq less). simpl. repeat split.
  - by apply ordered_emplace.
  - intros k' Hne. by apply (find_emplace_ne less).
  - apply (emplace_present less).
Qed.

(** X5. Used as a priority queue: after inserting a key that is below every
    key of the map, [remove_top] hands out exactly that entry and leaves the
    map as it was before the insertion; after inserting a key above the
    first key, [remove_top] still hands out the old first entry. *)
Theorem remove_top_after_insert key value m (key0 : K) (value0 : V) :
  ((∀ k v, (k, v) ∈ m → less key k = true) →
   remove_top (insert less (key, value) m) key0 value0
   = Removed true key value m)
  ∧ (∀ k v, begin m = Some (k, v) → less k key = true →
     remove_top (insert less (key, value) m) key0 value0
     = Removed true k v (insert less (key, value) (erase_begin m))).
Proof.
  unfold insert. simpl. split.
  - intros Hall. destruct m as [|[k v] m]; simpl; [done|].
    by rewrite (Hall k v) by left.
  - intros k v Hb Hlt. destruct m as [|[k1 v1] m]; simpl in *; [done|].
    injection Hb as -> ->. by rewrite (lt_asym less _ _ Hlt), Hlt.
Qed.
End map_extras.

Section insert_max_extras.
Import ThreadSafeMap.
Context {K V : Type} (less : K → K → bool) (greater : V → V → bool).
Context `{!StrictTotal less} `{!StrictTotal greater}.
Implicit Types (m : M (K:=K) (V:=V)) (k key : K) (v value : V).

Lemma ordered_insert_max_all calls m :
  ordered less m → ordered less (insert_max_all less greater calls m).
Proof.
  revert m. induction calls as [|[k v] calls IH]; intros m Hord; [done|].
  apply IH. by apply ordered_insert_max.
Qed.

Lemma foldl_raise_perm (stored : option V) (vs vs' : list V) :
  vs ≡ₚ vs' →
  foldl (raise greater) stored vs = foldl (raise greater) stored vs'.
Proof.
  intros Hperm.
  pose proof (foldl_raise_is_max greater stored vs) as H1.
  pose proof (foldl_raise_is_max greater stored vs') as H2.
  destruct (foldl (raise greater) stored vs) as [x|],
           (foldl (raise greater) stored vs') as [y|].
  - destruct H1 as (Hx & Hxs & Hxv), H2 as (Hy & Hys & Hyv).
    assert (y = x ∨ greater x y = true) as Hxy.
    { destruct Hy as [->|Hy]; [by apply Hxs|].
      apply Hxv. by rewrite Hperm. }
    assert (x = y ∨ greater y x = true) as Hyx.
    { destruct Hx as [->|Hx]; [by apply Hys|].
      apply Hyv. by rewrite <-Hperm. }
    destruct Hxy as [->|Hxy]; [done|]. destruct Hyx as [->|Hyx]; [done|].
    by rewrite (lt_asym greater _ _ Hxy) in Hyx.
  - destruct H2 as [-> ->]. apply Permutation_nil_r in Hperm. subst vs.
    destruct H1 as ([?|Hin] & _); [done|by apply elem_of_nil in Hin].
  - destruct H1 as [-> ->]. apply Permutation_nil_l in Hperm. subst vs'.
    destruct H2 as ([?|Hin] & _); [done|by apply elem_of_nil in Hin].
  - done.
Qed.

Lemma size_insert_max key value m :
  (size m ≤ size (insert_max less greater key value m) ≤ S (size m))%nat.
Proof.
  unfold insert_max. destruct (find less key m) as [stored|] eqn:Hf.
  - destruct (greater value stored); [|lia].
    assert (size (assign less key value m) = size m) as ->; [|lia].
    clear Hf. unfold size. induction m as [|[k v] m IH]; simpl; [done|].
    destruct (less key k); [done|]. destruct (less k key); simpl; [|done].
    by rewrite IH.
  - rewrite (size_emplace less), Hf. lia.
Qed.

Lemma size_insert_max_all calls m :
  (size m ≤ size (insert_max_all less greater calls m)
   ≤ size m + length calls)%nat.
Proof.
  revert m. induction calls as [|[k v] calls IH]; intros m; simpl; [lia|].
  specialize (IH (insert_max less greater k v m)).
  pose proof (size_insert_max k v m). unfold insert_max_all in *. simpl.
  lia.
Qed.

(** X6. The map built by [insert_max] calls does not depend on the order of
    the calls: any rearrangement of a sequence of calls leaves the same map.
    In particular two calls commute, and repeating a call changes nothing. *)
Theorem insert_max_order_irrelevant (calls calls' : list (K * V)) m :
  ordered less m → calls ≡ₚ calls' →
  insert_max_all less greater calls m = insert_max_all less greater calls' m
  ∧ (∀ k1 v1 k2 v2,
       insert_max less greater k1 v1 (insert_max less greater k2 v2 m)
       = insert_max less greater k2 v2 (insert_max less greater k1 v1 m))
  ∧ (∀ k v,
       insert_max less greater k v (insert_max less greater k v m)
       = insert_max less greater k v m).
Proof.
  intros Hord Hperm.
  assert (Hany : ∀ c c' : list (K * V), c ≡ₚ c' →
    insert_max_all less greater c m = insert_max_all less greater c' m).
  { intros c c' Hc.
    apply (ordered_ext less _ _ (ordered_insert_max_all c m Hord)
             (ordered_insert_max_all c' m Hord)).
    intros k. rewrite !(find_insert_max_all less greater).
    apply foldl_raise_perm. unfold offered. by rewrite Hc. }
  repeat split.
  - by apply Hany.
  - intros k1 v1 k2 v2.
    apply (Hany [(k2, v2); (k1, v1)] [(k1, v1); (k2, v2)]). apply perm_swap.
  - intros k v.
    assert (H1 : ordered less (insert_max less greater k v m))
      by by apply ordered_insert_max.
    assert (H2 : ordered less
              (insert_max less greater k v (insert_max less greater k v m)))
      by by apply ordered_insert_max.
    apply (ordered_ext less _ _ H2 H1).
    intros k'. destruct (less k' k || less k k') eqn:Hk.
    + assert (k' ≠ k)
        by (intros ->; by rewrite (lt_irrefl (lt:=less)) in Hk).
      by rewrite !(find_insert_max_ne less greater).
    + apply (same_key_iff less) in Hk as ->.
      rewrite !(find_insert_max_eq less greater). unfold raise.
      destruct (find less k m) as [s|];
        [|by rewrite (lt_irrefl (lt:=greater))].
      destruct (greater v s) eqn:Hvs;
        [by rewrite (lt_irrefl (lt:=greater))|by rewrite Hvs].
Qed.

(** X7. [insert_max] never lowers what is stored and never removes a key:
    a key that holds [stored] before a sequence of calls holds [stored] or
    something greater afterwards, and the map has not become smaller. *)
Theorem insert_max_never_lowers (calls : list (K * V)) key (stored : V) m :
  find less key m = Some stored →
  (∃ v, find less key (insert_max_all less greater calls m) = Some v
        ∧ (v = stored ∨ greater v stored = true))
  ∧ (size m ≤ size (insert_max_all less greater calls m))%nat.
Proof.
  intros Hf. split; [|apply size_insert_max_all].
  rewrite (find_insert_max_all less greater), Hf.
  pose proof (foldl_raise_is_max greater (Some stored)
                (offered less key calls)) as Hmax.
  destruct (foldl _ _ _) as [v|]; [|by destruct Hmax].
  destruct Hmax as (_ & Hs & _). exists v. split; [done|].
  destruct (Hs stored eq_refl) as [->|?]; auto.
Qed.

(** X8. Filling a fresh map by [insert_max] calls and then emptying it with
    [remove_top] sorts the keys: the keys come out strictly increasing, each
    key that was offered comes out once, and no other key does. *)
Theorem drain_after_insert_max_sorts (calls : list (K * V)) (key0 : K)
    (value0 : V) :
  let m := insert_max_all less greater calls create in
  (drain (length calls) m key0 value0).2 = []
  ∧ StronglySorted (λ a b, less a b = true)
      (drain (length calls) m key0 value0).1
  ∧ ∀ k, k ∈ (drain (length calls) m key0 value0).1 ↔ ∃ v, (k, v) ∈ calls.
Proof.
  intros m.
  assert (Hord : ordered less m) by apply ordered_insert_max_all, ordered_nil.
  assert (Hsize : (length m ≤ length calls)%nat).
  { pose proof (size_insert_max_all calls (create : M (K:=K) (V:=V))) as H.
    unfold size, create in H. simpl in H. unfold m, create. lia. }
  rewrite (drain_all _ m key0 value0 Hsize). simpl.
  repeat split; [by apply ordered_keys_increasing|..].
  - intros [v Hv]%(keys_find less); [|done].
    unfold m in Hv. rewrite (find_insert_max_all less greater) in Hv.
    pose proof (foldl_raise_is_max greater None (offered less k calls)) as Hm.
    simpl in Hv. rewrite Hv in Hm. destruct Hm as ([?|Hin] & _); [done|].
    exists v. by apply (elem_of_offered less).
  - intros [v Hv]. apply (keys_find less); [done|].
    unfold m. rewrite (find_insert_max_all less greater). simpl.
    pose proof (foldl_raise_is_max greater None (offered less k calls)) as Hm.
    destruct (foldl _ _ _) as [x|]; [by eexists|].
    destruct Hm as [_ Hnil]. apply (elem_of_offered less) in Hv.
    rewrite Hnil in Hv. by apply elem_of_nil in Hv.
Qed.
End insert_max_extras.

(** ** Flag: sequences of operations *)

Section flag_extras.
Import Flag.
Implicit Types (f : Flag) (ops : list op).

Lemma apply_all_snoc ops o f :
  apply_all (ops ++ [o]) f = apply o (apply_all ops f).
Proof. unfold apply_all. by rewrite foldl_app. Qed.

Lemma last_toggle_snoc ops o :
  last_toggle (ops ++ [o])
  = match o with
    | DoSet => Some true
    | DoReset => Some false
    | DoDisarm => last_toggle ops
    end.
Proof. unfold last_toggle. by rewrite foldl_app. Qed.

(** X9. The two bits of a flag are independent.  After any operations the
    state is the one written by the last [set()] or [reset()] (the initial
    one if there was none), whatever [disarm()] calls came in between; and
    the flag is disarmed exactly if it was before or one of the operations
    was a [disarm()]. *)
Theorem flag_after_operations ops f :
  is_set (apply_all ops f) = default (flag_ f) (last_toggle ops)
  ∧ disarmed_ (apply_all ops f)
    = disarmed_ f || existsb is_disarm_op ops.
Proof.
  induction ops as [|o ops [IH1 IH2]] using rev_ind.
  - simpl. by rewrite orb_false_r.
  - rewrite apply_all_snoc, last_toggle_snoc, existsb_app.
    unfold is_set in *. destruct o; simpl.
    + split; [done|]. by rewrite IH2, orb_false_r.
    + split; [done|]. by rewrite IH2, orb_false_r.
    + split; [done|]. by rewrite !orb_true_r.
Qed.

(** X10. On a flag that is not disarmed one [set()] lets exactly one caller
    through [wait_reset()]: the first caller passes and leaves the flag
    clear, every further caller blocks, and so does a caller of [wait()].
    [wait()] itself passes after [set()] without touching the flag. *)
Theorem set_is_consumed_once f (n : nat) :
  disarmed_ f = false →
  wait_reset_times 1 (set f) = Some (make false)
  ∧ wait_reset_times (S (S n)) (set f) = None
  ∧ wait (make false) = None
  ∧ wait (set f) = Some (set f).
Proof.
  intros Hf. destruct f as [fl dis]. simpl in Hf. subst dis. done.
Qed.

Lemma wait_reset_disarmed f : disarmed_ f = true → wait_reset f = Some f.
Proof.
  intros Hf. unfold wait_reset, wait_reset_pred.
  by rewrite Hf, orb_true_r.
Qed.

(** X11. Once [disarm()] has run, [wait_reset()] is a no-op for good: after
    any further operations, any number of callers pass through it and none
    of them changes the flag, so a state that is set stays set. *)
Theorem disarmed_wait_reset_is_noop f ops (n : nat) :
  wait_reset_times n (apply_all ops (disarm f))
  = Some (apply_all ops (disarm f)).
Proof.
  assert (Hd : disarmed_ (apply_all ops (disarm f)) = true)
    by by apply disarmed_apply_all.
  induction n as [|n IH]; simpl; [done|].
  by rewrite wait_reset_disarmed.
Qed.
End flag_extras.

(** ** atomic_maximum / atomic_minimum: retries and order *)

Section atomic_extras.
Import Atomic.
Context (d : extremum).

Lemma run_alone_spurious (k : nat) cell c :
  improves d cell c = true →
  run_alone d (replicate k true) cell (Loop cell c) = (cell, Loop cell c).
Proof.
  intros Himp. induction k as [|k IH]; simpl; [done|].
  rewrite Himp. unfold compare_exchange_weak. rewrite Z.eqb_refl. simpl.
  exact IH.
Qed.

Lemma run_alone_app oracle1 oracle2 cell t :
  run_alone d (oracle1 ++ oracle2) cell t
  = run_alone d oracle2 (run_alone d oracle1 cell t).1
      (run_alone d oracle1 cell t).2.
Proof.
  revert cell t. induction oracle1 as [|b o IH]; intros cell t; simpl; [done|].
  destruct (thread_step d b cell t) as [cell' t']. apply IH.
Qed.

(** X12. Spurious failures of the exchange only delay an undisturbed call:
    while the exchange keeps failing spuriously the cell is untouched and the
    call is still in its loop, and the first exchange that does not fail
    spuriously completes the call with the same result as a call without any
    failure. *)
Theorem spurious_failures_only_delay (k : nat) (b : bool) cell c :
  (improves d cell c = true →
   run_alone d (b :: replicate k true) cell (Entry c) = (cell, Loop cell c))
  ∧ run_alone d (b :: replicate k true ++ [false]) cell (Entry c)
    = (if improves d cell c then c else cell, Exit c).
Proof.
  split.
  - intros Himp. simpl. by apply run_alone_spurious.
  - simpl. rewrite run_alone_app.
    destruct (improves d cell c) eqn:Himp.
    + rewrite run_alone_spurious by done. simpl. rewrite Himp.
      unfold compare_exchange_weak. by rewrite Z.eqb_refl.
    + destruct k as [|k]; simpl; rewrite Himp; [done|].
      by rewrite run_alone_exit.
Qed.

Lemma best_of_perm cell (proposals proposals' : list Z) :
  proposals ≡ₚ proposals' →
  best_of d cell proposals = best_of d cell proposals'.
Proof.
  intros Hperm. apply (reaches_antisym d).
  - apply best_of_reaches. rewrite Hperm. apply best_of_elem.
  - apply best_of_reaches. rewrite <-Hperm. apply best_of_elem.
Qed.

(** X13. The value the cell ends up with depends neither on the interleaving
    nor on which thread carries which proposal: two pools started on the
    same cell with the same proposals in any order hold the same value once
    all their calls have returned. *)
Theorem final_cell_is_unique cell (proposals proposals' : list Z)
    (sched sched' : list (nat * bool)) :
  proposals ≡ₚ proposals' →
  forallb exited (run d sched (start cell proposals)).2 = true →
  forallb exited (run d sched' (start cell proposals')).2 = true →
  (run d sched (start cell proposals)).1
  = (run d sched' (start cell proposals')).1.
Proof.
  intros Hperm H1 H2.
  rewrite (consistent_final d cell proposals _
             (consistent_run _ _ _ sched _ (consistent_start _ _ _)) H1).
  rewrite (consistent_final d cell proposals' _
             (consistent_run _ _ _ sched' _ (consistent_start _ _ _)) H2).
  by apply best_of_perm.
Qed.
End atomic_extras.

(** ** Caffe: sequences of calls *)

Section caffe_extras.
Import Caffe.
Implicit Types (c : Caffe) (recs : list Z) (sched : list (nat * bool)).

(** X14. Over any sequence of [set_mode] calls, [init()] runs once for every
    call that asks for a mode different from the one in force and never
    otherwise, and the mode in the end is the one asked for last. *)
Theorem set_mode_counts_changes (init : Caffe → Caffe) (modes : list Brew) c :
  (∀ c', mode_ (init c') = mode_ c') →
  (set_mode_all init modes c).2 = mode_changes (mode_ c) modes
  ∧ mode_ (set_mode_all init modes c).1 = default (mode_ c) (last modes).
Proof.
  intros Hinit. revert c.
  induction modes as [|mode modes IH]; intros c; simpl; [done|].
  rewrite last_cons. unfold set_mode.
  destruct (Brew_eqb (mode_ c) mode) eqn:Heq; simpl.
  - apply Brew_eqb_eq in Heq. destruct (IH c) as [-> ->].
    rewrite Heq. split; [done|]. by destruct (last modes).
  - destruct (IH (init (with_mode mode c))) as [-> ->].
    rewrite Hinit. simpl. split; [done|]. by destruct (last modes).
Qed.

Lemma report_cell_le recs sched c :
  epoch_count_ (report_epoch_count recs sched c).1 ≤ epoch_count_ c.
Proof.
  unfold report_epoch_count. simpl.
  exact (run_reaches Atomic.Minimum sched
           (Atomic.start (epoch_count_ c) recs)).
Qed.

Lemma report_cell_elem recs sched c :
  epoch_count_ (report_epoch_count recs sched c).1 ∈ epoch_count_ c :: recs.
Proof.
  unfold report_epoch_count. simpl.
  by destruct (consistent_run Atomic.Minimum _ _ sched _
                 (consistent_start Atomic.Minimum (epoch_count_ c) recs))
    as (_ & _ & ? & _).
Qed.

(** X15. Once an epoch below the unset value has been recorded, further
    reports can only lower what [epoch_count()] returns, whatever state the
    reporting calls are in.  On a counter that is still unset, reports of
    the unset value itself (or anything not below it) leave [epoch_count()]
    at 0. *)
Theorem epoch_count_only_falls recs sched c :
  (0 ≤ epoch_count_ c < epoch_count_unset →
   epoch_count (report_epoch_count recs sched c).1 ≤ epoch_count c)
  ∧ (epoch_count_ c = epoch_count_unset →
     (∀ e, e ∈ recs → epoch_count_unset ≤ e) →
     epoch_count (report_epoch_count recs sched c).1 = 0).
Proof.
  pose proof (report_cell_le recs sched c) as Hle.
  pose proof (report_cell_elem recs sched c) as Hin.
  unfold epoch_count. fold epoch_count_unset. split.
  - intros Hc.
    destruct (_ =? _) eqn:H1; [apply Z.eqb_eq in H1; lia|].
    destruct (epoch_count_ c =? _) eqn:H2; [apply Z.eqb_eq in H2; lia|done].
  - intros Hc Hall.
    assert (epoch_count_ (report_epoch_count recs sched c).1
            = epoch_count_unset) as ->; [|by rewrite Z.eqb_refl].
    apply elem_of_cons in Hin as [->|Hin]; [done|].
    specialize (Hall _ Hin). lia.
Qed.
End caffe_extras.

(** ** align_down, align_up, is_even, even *)

Section align_facts.
Import Align.
Implicit Types (power val : Z).

Lemma low_mask_ones power : 0 ≤ power → low_mask power = Z.ones power.
Proof.
  intros Hp. unfold low_mask. rewrite Z.ones_equiv, Z.shiftl_1_l. lia.
Qed.

Lemma to_size_t_small val : is_size_t val → to_size_t val = val.
Proof. intros Hv. apply Z.mod_small. exact Hv. Qed.

Lemma land_to_size_t val x :
  is_size_t val → Z.land val (to_size_t x) = Z.land val x.
Proof.
  intros Hv. unfold to_size_t, Caffe.to_size_t.
  rewrite <-(Z.land_ones x 64) by lia.
  rewrite (Z.land_comm x), Z.land_assoc, Z.land_ones by lia.
  by rewrite Z.mod_small.
Qed.

Lemma pow2_pos power : 0 ≤ power → 0 < 2 ^ power.
Proof. intros. by apply Z.pow_pos_nonneg. Qed.

Lemma align_down_eq power val :
  is_size_t val → 0 ≤ power →
  align_down power val = 2 ^ power * (val / 2 ^ power).
Proof.
  intros Hv Hp. unfold align_down.
  rewrite land_to_size_t, low_mask_ones by done.
  rewrite <-Z.ldiff_land, Z.ldiff_ones_r by done.
  rewrite Z.shiftl_mul_pow2, Z.shiftr_div_pow2 by done. lia.
Qed.

Lemma low_bits_eq power val :
  is_size_t val → 0 ≤ power →
  Z.land val (to_size_t (low_mask power)) = val mod 2 ^ power.
Proof.
  intros Hv Hp. rewrite land_to_size_t, low_mask_ones by done.
  by apply Z.land_ones.
Qed.

Lemma lor_ones power val :
  0 ≤ power →
  Z.lor val (Z.ones power) = 2 ^ power * (val / 2 ^ power) + (2 ^ power - 1).
Proof.
  intros Hp.
  assert (Z.lor val (Z.ones power)
          = Z.lor (Z.ldiff val (Z.ones power)) (Z.ones power)) as ->.
  { apply Z.bits_inj'. intros n Hn.
    rewrite !Z.lor_spec, Z.ldiff_spec.
    by destruct (Z.testbit val n), (Z.testbit (Z.ones power) n). }
  assert (Hdisj : Z.land (Z.ldiff val (Z.ones power)) (Z.ones power) = 0).
  { apply Z.bits_inj'. intros n Hn.
    rewrite Z.land_spec, Z.ldiff_spec, Z.bits_0.
    by destruct (Z.testbit val n), (Z.testbit (Z.ones power) n). }
  rewrite <-Z.lxor_lor, <-Z.add_nocarry_lxor by done.
  rewrite Z.ldiff_ones_r, Z.shiftl_mul_pow2, Z.shiftr_div_pow2 by done.
  rewrite Z.ones_equiv. lia.
Qed.

Lemma pow2_le_30 power : 0 ≤ power ≤ 30 → 0 < 2 ^ power ≤ 2 ^ 30.
Proof.
  intros Hp. split; [apply pow2_pos; lia|].
  apply Z.pow_le_mono_r; lia.
Qed.

Lemma size_t_split power :
  0 ≤ power ≤ 30 → 2 ^ 64 = 2 ^ power * 2 ^ (64 - power).
Proof. intros Hp. rewrite <-Z.pow_add_r by lia. f_equal. lia. Qed.

Lemma align_up_eq power val :
  is_size_t val → 0 ≤ power ≤ 30 →
  align_up power val
  = if val mod 2 ^ power =? 0 then val
    else to_size_t (2 ^ power * (val / 2 ^ power + 1)).
Proof.
  intros Hv Hp. unfold align_up. rewrite low_bits_eq by (done || lia).
  destruct (_ =? 0); [done|]. f_equal.
  pose proof (pow2_le_30 power Hp).
  rewrite to_size_t_small.
  - rewrite low_mask_ones, lor_ones by lia. lia.
  - rewrite low_mask_ones, Z.ones_equiv by lia. unfold is_size_t. lia.
Qed.

(** The value of [align_up] in arithmetic terms: multiples are kept, other
    values go to the next multiple, which wraps to 0 when it is [2^64]. *)
Lemma align_up_cases power val :
  is_size_t val → 0 ≤ power ≤ 30 →
  align_up power val
  = if val mod 2 ^ power =? 0 then val
    else if val <=? 2 ^ 64 - 2 ^ power then 2 ^ power * (val / 2 ^ power + 1)
    else 0.
Proof.
  intros Hv Hp. rewrite align_up_eq by done.
  destruct (val mod 2 ^ power =? 0) eqn:Hz; [done|]. apply Z.eqb_neq in Hz.
  pose proof (pow2_le_30 power Hp) as HP.
  pose proof (size_t_split power Hp) as Hsplit.
  assert (0 < 2 ^ (64 - power)) by (apply pow2_pos; lia).
  unfold is_size_t in *.
  set (P := 2 ^ power) in *. set (Q := 2 ^ (64 - power)) in *.
  pose proof (Z.div_mod val P ltac:(lia)) as Hdm.
  pose proof (Z.mod_pos_bound val P ltac:(lia)) as Hr.
  assert (0 ≤ val / P) by (apply Z.div_pos; lia).
  destruct (val <=? 2 ^ 64 - P) eqn:Hfit.
  - apply Z.leb_le in Hfit. apply to_size_t_small. unfold is_size_t. nia.
  - apply Z.leb_gt in Hfit.
    assert (val / P = Q - 1) as -> by nia.
    replace (P * (Q - 1 + 1)) with (2 ^ 64) by lia. reflexivity.
Qed.

(** Facts about [val], [2^power] and the quotient that the arithmetic in
    the proofs below needs. *)
Ltac quotient power val Hv Hp :=
  let P := fresh "P" in
  pose proof (pow2_le_30 power Hp);
  unfold is_size_t in Hv |- *;
  set (P := 2 ^ power) in *;
  pose proof (Z.div_mod val P ltac:(lia));
  pose proof (Z.mod_pos_bound val P ltac:(lia));
  assert (0 ≤ val / P) by (apply Z.div_pos; lia).

(** X16. [align_down<power>(val)] is a multiple of [2^power], it is not
    greater than [val] and less than [2^power] below it, and it is the
    biggest multiple of [2^power] that is not greater than [val]. *)
Theorem align_down_largest_multiple power val :
  is_size_t val → 0 ≤ power ≤ 30 →
  is_size_t (align_down power val)
  ∧ align_down power val mod 2 ^ power = 0
  ∧ val - 2 ^ power < align_down power val ≤ val
  ∧ ∀ n, n mod 2 ^ power = 0 → n ≤ val → n ≤ align_down power val.
Proof.
  intros Hv Hp. rewrite align_down_eq by (done || lia).
  quotient power val Hv Hp.
  repeat split; try nia.
  - rewrite Z.mul_comm. by apply Z.mod_mul; lia.
  - intros n Hn Hle.
    pose proof (Z.div_mod n P ltac:(lia)) as Hn'. rewrite Hn in Hn'.
    assert (n / P ≤ val / P) by (apply Z.div_le_mono; lia). nia.
Qed.

(** X17. Unless the next multiple of [2^power] is [2^64],
    [align_up<power>(val)] is a multiple of [2^power], it is not less than
    [val] and less than [2^power] above it, and it is the smallest multiple
    of [2^power] that is not less than [val]. *)
Theorem align_up_smallest_multiple power val :
  is_size_t val → 0 ≤ power ≤ 30 → val ≤ 2 ^ 64 - 2 ^ power →
  is_size_t (align_up power val)
  ∧ align_up power val mod 2 ^ power = 0
  ∧ val ≤ align_up power val < val + 2 ^ power
  ∧ ∀ n, n mod 2 ^ power = 0 → val ≤ n → align_up power val ≤ n.
Proof.
  intros Hv Hp Hfit. rewrite align_up_cases by done.
  rewrite (proj2 (Z.leb_le _ _) Hfit).
  quotient power val Hv Hp.
  destruct (val mod P =? 0) eqn:Hz.
  - apply Z.eqb_eq in Hz. repeat split; try lia.
  - apply Z.eqb_neq in Hz.
    repeat split; try nia.
    + rewrite Z.mul_comm. by apply Z.mod_mul; lia.
    + intros n Hn Hle.
      pose proof (Z.div_mod n P ltac:(lia)) as Hn'. rewrite Hn in Hn'.
      assert (val / P ≤ n / P) by (apply Z.div_le_mono; lia).
      assert (n / P ≠ val / P) by nia. nia.
Qed.

(** X18. For a [val] above the last multiple of [2^power] that fits into
    [size_t], the addition in [align_up] wraps around and the result is 0,
    which is below [val]. *)
Theorem align_up_wraps power val :
  is_size_t val → 0 ≤ power ≤ 30 → 2 ^ 64 - 2 ^ power < val →
  align_up power val = 0 ∧ align_up power val < val.
Proof.
  intros Hv Hp Hover. rewrite align_up_cases by done.
  rewrite (proj2 (Z.leb_gt _ _) Hover).
  pose proof (size_t_split power Hp) as Hsplit.
  assert (0 < 2 ^ (64 - power)) by (apply pow2_pos; lia).
  quotient power val Hv Hp.
  destruct (val mod P =? 0) eqn:Hz; [|lia].
  apply Z.eqb_eq in Hz. nia.
Qed.

(** X19. The multiples of [2^power] are exactly the values [align_down] and
    [align_up] leave alone, and both functions are idempotent. *)
Theorem align_fixed_points power val :
  is_size_t val → 0 ≤ power ≤ 30 →
  (align_down power val = val ↔ val mod 2 ^ power = 0)
  ∧ (align_up power val = val ↔ val mod 2 ^ power = 0)
  ∧ align_down power (align_down power val) = align_down power val
  ∧ align_up power (align_up power val) = align_up power val.
Proof.
  intros Hv Hp.
  assert (Hfix : ∀ x, is_size_t x → x mod 2 ^ power = 0 →
                 align_down power x = x ∧ align_up power x = x).
  { intros x Hx Hx0. rewrite align_down_eq, align_up_cases by (done || lia).
    rewrite Hx0. simpl. pose proof (pow2_le_30 power Hp).
    pose proof (Z.div_mod x (2 ^ power) ltac:(lia)). split; lia. }
  assert (Hdown : is_size_t (align_down power val)
                  ∧ align_down power val mod 2 ^ power = 0).
  { rewrite align_down_eq by (done || lia). quotient power val Hv Hp.
    split; [nia|]. rewrite Z.mul_comm. by apply Z.mod_mul; lia. }
  assert (Hup : is_size_t (align_up power val)
                ∧ align_up power val mod 2 ^ power = 0
                ∧ (val mod 2 ^ power ≠ 0 → align_up power val ≠ val)).
  { rewrite align_up_cases by done.
    pose proof (size_t_split power Hp) as Hsplit.
    quotient power val Hv Hp.
    destruct (val mod P =? 0) eqn:Hz.
    - apply Z.eqb_eq in Hz. repeat split; [lia..|done|done].
    - apply Z.eqb_neq in Hz. destruct (val <=? 2 ^ 64 - P) eqn:Hfit.
      + apply Z.leb_le in Hfit. repeat split; [nia..| |nia].
        rewrite Z.mul_comm. by apply Z.mod_mul; lia.
      + repeat split; [lia..|done|]. intros _ Heq. rewrite <-Heq in Hz.
        done. }
  destruct Hdown as [Hd1 Hd2]. destruct Hup as (Hu1 & Hu2 & Hu3).
  repeat split.
  - intros <-. done.
  - intros H0. by apply Hfix.
  - intros Heq. destruct (Z.eq_dec (val mod 2 ^ power) 0); [done|].
    by destruct Hu3.
  - intros H0. by apply Hfix.
  - by apply Hfix.
  - by apply Hfix.
Qed.

(** X20. Where nothing wraps, rounding up is rounding down after adding
    [2^power - 1]. *)
Theorem align_up_as_align_down power val :
  is_size_t val → 0 ≤ power ≤ 30 → val ≤ 2 ^ 64 - 2 ^ power →
  align_up power val = align_down power (val + (2 ^ power - 1)).
Proof.
  intros Hv Hp Hfit. rewrite align_up_cases by done.
  rewrite (proj2 (Z.leb_le _ _) Hfit).
  pose proof (pow2_le_30 power Hp) as HP.
  rewrite align_down_eq by (unfold is_size_t in *; lia).
  quotient power val Hv Hp.
  destruct (val mod P =? 0) eqn:Hz.
  - apply Z.eqb_eq in Hz.
    assert ((val + (P - 1)) / P = val / P) as ->; [|lia].
    symmetry. apply (Z.div_unique _ _ _ (P - 1)); lia.
  - apply Z.eqb_neq in Hz.
    assert ((val + (P - 1)) / P = val / P + 1) as ->; [|done].
    symmetry. apply (Z.div_unique _ _ _ (val mod P - 1)); lia.
Qed.

Lemma land_1 val : Z.land val 1 = val mod 2.
Proof. apply (Z.land_ones val 1). lia. Qed.

Lemma to_size_t_succ val :
  is_size_t val →
  to_size_t (val + 1) = if val =? 2 ^ 64 - 1 then 0 else val + 1.
Proof.
  intros Hv. unfold is_size_t in Hv.
  destruct (val =? 2 ^ 64 - 1) eqn:Hmax.
  - apply Z.eqb_eq in Hmax. by rewrite Hmax.
  - apply Z.eqb_neq in Hmax. apply to_size_t_small. unfold is_size_t. lia.
Qed.

(** X21. [is_even] tests divisibility by 2.  [even(val)] is always even; it is
    [val] or [val + 1], namely the smallest even number not less than [val],
    except for the largest [size_t], where [val + 1] wraps to 0.  [even] is
    [align_up] for a power of one. *)
Theorem even_rounds_up val :
  is_size_t val →
  (is_even val = true ↔ val mod 2 = 0)
  ∧ is_even (even val) = true
  ∧ even val = align_up 1 val
  ∧ (val < 2 ^ 64 - 1 →
     val ≤ even val ≤ val + 1
     ∧ ∀ n, n mod 2 = 0 → val ≤ n → even val ≤ n)
  ∧ (val = 2 ^ 64 - 1 → even val = 0).
Proof.
  intros Hv.
  assert (Hup : even val = align_up 1 val).
  { rewrite align_up_eq by (done || lia).
    unfold even. rewrite land_1. change (2 ^ 1) with 2.
    pose proof (Z.div_mod val 2 ltac:(lia)) as Hdm.
    pose proof (Z.mod_pos_bound val 2 ltac:(lia)) as Hr.
    destruct (val mod 2 =? 0) eqn:Hz; simpl; [done|].
    apply Z.eqb_neq in Hz. f_equal. lia. }
  split; [|split; [|split; [exact Hup|]]].
  - unfold is_even. rewrite land_1. apply Z.eqb_eq.
  - unfold is_even, even. rewrite !land_1.
    destruct (val mod 2 =? 0) eqn:Hz; simpl; [done|].
    apply Z.eqb_neq in Hz. rewrite to_size_t_succ by done.
    apply Z.eqb_eq. destruct (val =? 2 ^ 64 - 1); [done|].
    pose proof (Z.mod_pos_bound val 2 ltac:(lia)) as Hr.
    rewrite Z.add_mod by lia. replace (val mod 2) with 1 by lia. done.
  - unfold even. rewrite land_1.
    pose proof (Z.div_mod val 2 ltac:(lia)) as Hdm.
    pose proof (Z.mod_pos_bound val 2 ltac:(lia)) as Hr.
    destruct (val mod 2 =? 0) eqn:Hz; simpl.
    + apply Z.eqb_eq in Hz. unfold is_size_t in Hv. repeat split; lia.
    + apply Z.eqb_neq in Hz. rewrite to_size_t_succ by done.
      unfold is_size_t in Hv.
      destruct (val =? 2 ^ 64 - 1) eqn:Hmax.
      * apply Z.eqb_eq in Hmax. repeat split; lia.
      * apply Z.eqb_neq in Hmax. repeat split; try lia.
        intros n Hn Hle. pose proof (Z.div_mod n 2 ltac:(lia)). lia.
Qed.
End align_facts.

(** ** Instances of the properties above *)

Section map_instances.
Import ThreadSafeMap.

Lemma ordered_2_5 : ordered Z.ltb [(2, 20); (5, 50)].
Proof. repeat constructor. Qed.

(** Inserting under the present key 2 keeps 20. *)
Lemma insert_keeps_existing_witness :
  find Z.ltb 2 (insert Z.ltb (2, 99) [(2, 20); (5, 50)]) = Some 20.
Proof.
  destruct (insert_keeps_existing Z.ltb 2 99 [(2, 20); (5, 50)] ordered_2_5)
    as (_ & Hfind & _).
  exact Hfind.
Defined.

(** After erasing key 2 it is gone and key 5 is still there. *)
Lemma erase_removes_only_key_witness :
  find Z.ltb 2 (erase Z.ltb 2 [(2, 20); (5, 50)]) = None
  ∧ find Z.ltb 5 (erase Z.ltb 2 [(2, 20); (5, 50)]) = Some 50.
Proof.
  destruct (erase_removes_only_key Z.ltb 2 [(2, 20); (5, 50)] ordered_2_5)
    as (_ & Hgone & Hrest & _).
  split; [exact Hgone|]. apply (Hrest 5). discriminate.
Defined.

(** Key 7 is absent: inserting and erasing it gives the map back. *)
Lemma insert_erase_round_trip_witness :
  erase Z.ltb 7 (insert Z.ltb (7, 70) [(2, 20); (5, 50)])
  = [(2, 20); (5, 50)].
Proof.
  destruct (insert_erase_round_trip Z.ltb 7 70 [(2, 20); (5, 50)] ordered_2_5)
    as [Hback _].
  apply Hback. reflexivity.
Defined.

(** Subscripting with the absent key 7 returns the initial value 0 and
    stores it. *)
Lemma subscript_inserts_default_witness :
  (subscript Z.ltb 0 7 [(2, 20); (5, 50)]).1 = 0
  ∧ find Z.ltb 7 (subscript Z.ltb 0 7 [(2, 20); (5, 50)]).2 = Some 0.
Proof.
  destruct (subscript_inserts_default Z.ltb 0 7 [(2, 20); (5, 50)]
              ordered_2_5) as (_ & Hval & Hfind & _).
  split; [exact Hval|exact Hfind].
Defined.

(** Key 1 is below 2 and 5: it is the next one handed out. *)
Lemma remove_top_after_insert_witness :
  remove_top (insert Z.ltb (1, 10) [(2, 20); (5, 50)]) 0 0
  = Removed true 1 10 [(2, 20); (5, 50)].
Proof.
  destruct (remove_top_after_insert Z.ltb 1 10 [(2, 20); (5, 50)] 0 0)
    as [Hmin _].
  apply Hmin. intros k v Hin.
  apply elem_of_cons in Hin as [[= -> ->]|Hin]; [reflexivity|].
  apply elem_of_cons in Hin as [[= -> ->]|Hin]; [reflexivity|].
  by apply elem_of_nil in Hin.
Defined.

(** Three calls and a rearrangement of them build the same map. *)
Lemma insert_max_order_irrelevant_witness :
  insert_max_all Z.ltb Z.gtb [(1, 9); (1, 5); (2, 7)] create
  = insert_max_all Z.ltb Z.gtb [(1, 5); (2, 7); (1, 9)] create.
Proof.
  destruct (insert_max_order_irrelevant Z.ltb Z.gtb
              [(1, 9); (1, 5); (2, 7)] [(1, 5); (2, 7); (1, 9)] create)
    as [Hsame _].
  - constructor.
  - apply (Permutation_cons_append [(1, 5); (2, 7)] (1, 9)).
  - exact Hsame.
Defined.

(** Key 1 holds 5; offers of 3 and 8 leave it at 5 or above. *)
Lemma insert_max_never_lowers_witness :
  let calls := [(1, 3); (1, 8)] in
  let m := [(1, 5)] in
  (∃ v, find Z.ltb 1 (insert_max_all Z.ltb Z.gtb calls m) = Some v
        ∧ (v = 5 ∨ (v >? 5) = true))
  ∧ (size m ≤ size (insert_max_all Z.ltb Z.gtb calls m))%nat.
Proof.
  intros calls m.
  apply (insert_max_never_lowers Z.ltb Z.gtb [(1, 3); (1, 8)] 1 5 [(1, 5)]).
  reflexivity.
Defined.

(** Offers for keys 5, 2 and 5 again come out as 2, 5. *)
Lemma drain_after_insert_max_sorts_witness :
  let m := insert_max_all Z.ltb Z.gtb [(5, 1); (2, 1); (5, 3)] create in
  (drain 3 m 0 0).1 = [2; 5]
  ∧ StronglySorted (λ a b, (a <? b) = true) (drain 3 m 0 0).1.
Proof.
  intros m.
  destruct (drain_after_insert_max_sorts Z.ltb Z.gtb
              [(5, 1); (2, 1); (5, 3)] 0 0) as (_ & Hsorted & _).
  split; [reflexivity|exact Hsorted].
Defined.
End map_instances.

Section flag_instances.
Import Flag.

(** Of five callers after one [set()] on a fresh flag only one passes. *)
Lemma set_is_consumed_once_witness :
  wait_reset_times 1 (set (make false)) = Some (make false)
  ∧ wait_reset_times 5 (set (make false)) = None
  ∧ wait (make false) = None
  ∧ wait (set (make false)) = Some (set (make false)).
Proof.
  apply (set_is_consumed_once (make false) 3). reflexivity.
Defined.
End flag_instances.

Section atomic_instances.
Import Atomic.

(** Proposals 5 and 9 in either order, under different interleavings. *)
Lemma final_cell_is_unique_witness :
  (run Maximum [(0, false); (1, false); (1, false); (0, false); (0, false)]%nat
     (start 3 [5; 9])).1
  = (run Maximum [(1, true); (1, true); (1, false); (0, false); (0, false)]%nat
       (start 3 [9; 5])).1.
Proof.
  apply (final_cell_is_unique Maximum 3 [5; 9] [9; 5]).
  - apply perm_swap.
  - reflexivity.
  - reflexivity.
Defined.
End atomic_instances.

Section caffe_instances.
Import Caffe.

(** From CPU, the requests GPU, GPU, CPU, GPU change the mode three times. *)
Lemma set_mode_counts_changes_witness :
  let c := {| mode_ := CPU; root_device_ := 0; gpus_ := [0];
              solver_count_ := 1; epoch_count_ := epoch_count_unset |} in
  (set_mode_all (λ c', c') [GPU; GPU; CPU; GPU] c).2 = 3%nat
  ∧ mode_ (set_mode_all (λ c', c') [GPU; GPU; CPU; GPU] c).1 = GPU.
Proof.
  intros c.
  apply (set_mode_counts_changes (λ c', c') [GPU; GPU; CPU; GPU] c).
  reflexivity.
Defined.
End caffe_instances.

Section align_instances.
Import Align.

Lemma is_size_t_1000 : is_size_t 1000.
Proof. unfold is_size_t. lia. Qed.

Lemma is_size_t_max : is_size_t (2 ^ 64 - 1).
Proof. unfold is_size_t. lia. Qed.

Lemma power_8 : 0 ≤ 8 ≤ 30.
Proof. lia. Qed.

(** 1000 rounded down to a multiple of 256 is 768. *)
Lemma align_down_largest_multiple_witness :
  align_down 8 1000 = 768
  ∧ ∀ n, n mod 2 ^ 8 = 0 → n ≤ 1000 → n ≤ align_down 8 1000.
Proof.
  destruct (align_down_largest_multiple 8 1000 is_size_t_1000 power_8)
    as (_ & _ & _ & Hmax).
  split; [reflexivity|exact Hmax].
Defined.

(** 1000 rounded up to a multiple of 256 is 1024. *)
Lemma align_up_smallest_multiple_witness :
  align_up 8 1000 = 1024
  ∧ ∀ n, n mod 2 ^ 8 = 0 → 1000 ≤ n → align_up 8 1000 ≤ n.
Proof.
  destruct (align_up_smallest_multiple 8 1000 is_size_t_1000 power_8)
    as (_ & _ & _ & Hmin); [lia|].
  split; [reflexivity|exact Hmin].
Defined.

(** The largest [size_t] rounded up to a multiple of 256 is 0. *)
Lemma align_up_wraps_witness :
  align_up 8 (2 ^ 64 - 1) = 0 ∧ align_up 8 (2 ^ 64 - 1) < 2 ^ 64 - 1.
Proof.
  apply (align_up_wraps 8 (2 ^ 64 - 1) is_size_t_max power_8). lia.
Defined.

(** 1000 is not a multiple of 256 and is moved; the results are fixed. *)
Lemma align_fixed_points_witness :
  (align_up 8 1000 = 1000 ↔ 1000 mod 2 ^ 8 = 0)
  ∧ align_up 8 (align_up 8 1000) = align_up 8 1000.
Proof.
  destruct (align_fixed_points 8 1000 is_size_t_1000 power_8)
    as (_ & Hup & _ & Hidem).
  split; [exact Hup|exact Hidem].
Defined.

Lemma align_up_as_align_down_witness :
  align_up 8 1000 = align_down 8 (1000 + (2 ^ 8 - 1)).
Proof.
  apply (align_up_as_align_down 8 1000 is_size_t_1000 power_8). lia.
Defined.

(** 999 is odd and goes to 1000; the largest [size_t] goes to 0. *)
Lemma even_rounds_up_witness :
  is_even (even 1000) = true
  ∧ even 1000 = align_up 1 1000
  ∧ (is_even 1000 = true ↔ 1000 mod 2 = 0).
Proof.
  destruct (even_rounds_up 1000 is_size_t_1000) as (Hiff & Heven & Hup & _).
  split; [exact Heven|]. split; [exact Hup|exact Hiff].
Defined.
End align_instances.
